(** * BasicEventEmitter: a shallow embedding of [src/index.ts]

    The class [BasicEventEmitter] keeps three private fields: the ordered
    subscription registry [this[_subscriptions]], the map of sealed events
    [this[_oneTimeEvents]] and the flag [_ready].  Its methods are embedded
    as functions on an explicit [State] that holds these fields together
    with the small part of the JavaScript run time the methods touch: the
    promises they create, the microtask queue that carries the continuations
    of [await], and a trace of the observable effects.

    Function values are data, in two layers.  In the first a listener passed
    in by the caller is a quiet function ([Listener]): it has a reference
    identity, returns a value that depends on its arguments, returns
    normally and calls no method of the emitter; its invocation is recorded
    in the trace.  The closures the class itself creates (the constructor's
    readiness listener, [ourCallback] of [once], the [async] arrow of
    [ready]) are constructors of their own, with the bodies they have in the
    source.  In the second layer ([Handler], [run]) a function of the caller
    may also call the methods of the emitter it listens to, and throw; there
    the loop of [emit] runs against a registry that changes under it, and an
    error leaves it.  The two layers agree on quiet registries
    ([run_emit_agrees_with_emit]).

    A method call is the synchronous part of the call: what has happened
    when control is back at the caller.  What an [await] or the return of a
    promise from an [async] method puts off is a job in the microtask queue
    of the state, run by [run_microtask]; a promise returned by [ready] is
    settled three jobs after its [await] is over.  The [for] loop of [emit]
    is a recursion on fuel; in the first layer [emit] gives it the length
    of the registry, which is enough ([emit_loop_spec]), so that the outcome
    [OutOfFuel] never shows ([emit_unsealed], [emit_sealed]); in the second
    a listener can emit the event it listens to, and the theorems say how
    much fuel is enough.

    [pipe] and [pipeOnce] need a second emitter and listeners that can
    throw; they are embedded on a pair of emitters ([Emitters]), with the
    methods of this emitter they go through. *)

From Stdlib Require Import ZArith.
From stdpp Require Import base decidable option list strings gmap.


(** ** Values and function values *)

Inductive Value :=
| VUndefined
| VBool (b : bool)
| VNum (n : Z)
| VStr (s : string)
| VPromise (p : nat).

#[warnings="-register-all"]
Inductive Callback :=
| Listener (id : nat) (ret : list Value → Value)
    (* a function of the caller; [id] is its reference identity *)
| InternalReady
    (* () => { this._ready = true }, registered by the constructor *)
| OnceCallback (p : nat) (callback : option Callback)
    (* ourCallback of once: (...arg) => { resolve(); callback?.(...arg) },
       where resolve settles promise p *)
| ReadyCallback (p : nat) (callback : option Callback).
    (* async () => { const response = await callback?.(); resolve(response) }
       of ready, where resolve settles promise p *)

(** [s.callback !== callback] compares references. *)
Definition same_callback (c1 c2 : Callback) : bool :=
  match c1, c2 with
  | Listener i _, Listener j _ => bool_decide (i = j)
  | InternalReady, InternalReady => true
  | OnceCallback p _, OnceCallback q _ => bool_decide (p = q)
  | ReadyCallback p _, ReadyCallback q _ => bool_decide (p = q)
  | _, _ => false
  end.

(** An entry of the registry: the fields [event], [callback] and [once] of
    the source ([once] is also the name of a method). *)
Record Subscription := mkSubscription {
  sub_event : string;
  sub_callback : Callback;
  sub_once : bool
}.

(** ** The state *)

(** What is to be done with the value of a promise, or of an [await]. *)
Inductive Reaction :=
| Resolve (p : nat)
    (* resolve(response): promise [p] takes the value *)
| ReturnResolved (p : nat).
    (* return Promise.resolve(response) in the [async] method whose promise
       is [p] *)

Inductive Job :=
| React (r : Reaction) (v : Value)
    (* a reaction, or the rest of an [async] function after an [await],
       with the value it waited for *)
| Adopt (outer inner : nat).
    (* promise [outer] was resolved with promise [inner]: the job calls
       inner.then with the resolving function of [outer] *)

Inductive PromiseState :=
| Pending (reactions : list Reaction)
    (* what waits for the value of this promise *)
| Fulfilled (v : Value).

Inductive Effect :=
| Called (id : nat) (arg : list Value)
| Settled (p : nat) (v : Value).

Record State := mkState {
  _subscriptions : list Subscription;
  _oneTimeEvents : gmap string (list Value);
  _ready : bool;
  promises : list PromiseState;
  microtasks : list Job;
  trace : list Effect
}.

Definition set_subscriptions (l : list Subscription) (st : State) : State :=
  mkState l (_oneTimeEvents st) (_ready st) (promises st) (microtasks st) (trace st).

Definition set_oneTimeEvents (m : gmap string (list Value)) (st : State) : State :=
  mkState (_subscriptions st) m (_ready st) (promises st) (microtasks st) (trace st).

Definition set_ready (b : bool) (st : State) : State :=
  mkState (_subscriptions st) (_oneTimeEvents st) b (promises st) (microtasks st) (trace st).

Definition set_promises (ps : list PromiseState) (st : State) : State :=
  mkState (_subscriptions st) (_oneTimeEvents st) (_ready st) ps (microtasks st) (trace st).

Definition set_microtasks (js : list Job) (st : State) : State :=
  mkState (_subscriptions st) (_oneTimeEvents st) (_ready st) (promises st) js (trace st).

Definition record (e : Effect) (st : State) : State :=
  mkState (_subscriptions st) (_oneTimeEvents st) (_ready st) (promises st)
          (microtasks st) (trace st ++ [e]).

(** ** Promises and [await] *)

(** [new Promise(...)]: a fresh pending promise. *)
Definition new_promise (st : State) : nat * State :=
  (length (promises st), set_promises (promises st ++ [Pending []]) st).

(** The [resolve] function of promise [p], called with a value that is not
    a promise (the source calls it with nothing or with an awaited value).
    A settled promise ignores it.  The reactions become microtasks. *)
Definition resolve (p : nat) (v : Value) (st : State) : State :=
  match promises st !! p with
  | Some (Pending ks) =>
      record (Settled p v)
        (set_microtasks (microtasks st ++ map (λ k, React k v) ks)
           (set_promises (<[p := Fulfilled v]> (promises st)) st))
  | _ => st
  end.

(** [const response = await v; ...]: the rest of the [async] function,
    [k], runs in a later microtask; it is queued at once when [v] is no
    promise or a fulfilled one, and else when [v] is fulfilled. *)
Definition await (v : Value) (k : Reaction) (st : State) : State :=
  match v with
  | VPromise q =>
      match promises st !! q with
      | Some (Fulfilled w) => set_microtasks (microtasks st ++ [React k w]) st
      | Some (Pending ks) =>
          set_promises (<[q := Pending (ks ++ [k])]> (promises st)) st
      | None => st
      end
  | _ => set_microtasks (microtasks st ++ [React k v]) st
  end.

(** What a job does when it runs.  The method of [ReturnResolved] makes
    the fulfilled promise of Promise.resolve and resolves its own promise
    with it, which takes a job of its own; that job finds the promise
    fulfilled and queues the reaction that fulfils the outer one. *)
Definition run_job (j : Job) (st : State) : State :=
  match j with
  | React (Resolve p) v => resolve p v st
  | React (ReturnResolved p) v =>
      let inner := length (promises st) in
      set_microtasks (microtasks st ++ [Adopt p inner])
        (set_promises (promises st ++ [Fulfilled v]) st)
  | Adopt outer inner =>
      match promises st !! inner with
      | Some (Fulfilled w) =>
          set_microtasks (microtasks st ++ [React (Resolve outer) w]) st
      | Some (Pending ks) =>
          set_promises (<[inner := Pending (ks ++ [Resolve outer])]> (promises st))
            st
      | None => st
      end
  end.

(** One microtask: the oldest queued job runs. *)
Definition run_microtask (st : State) : State :=
  match microtasks st with
  | [] => st
  | j :: js => run_job j (set_microtasks js st)
  end.

(** ** Calling a function value

    The function values of this part are quiet: called, they return, and
    they use no method of the emitter.  A [Listener] stands for such a
    function of the caller; the others are the closures the class itself
    makes.  Functions of the caller that call the emitter or throw are the
    [Script]s of the part on listeners that call the emitter, below. *)

Fixpoint call (c : Callback) (arg : list Value) (st : State) : Value * State :=
  match c with
  | Listener id ret => (ret arg, record (Called id arg) st)
  | InternalReady => (VUndefined, set_ready true st)
  | OnceCallback p callback =>
      let st1 := resolve p VUndefined st in
      match callback with
      | Some cb => (VUndefined, snd (call cb arg st1))
      | None => (VUndefined, st1)
      end
  | ReadyCallback p callback =>
      (* the promise of the async arrow itself is dropped by its caller *)
      match callback with
      | Some cb => let '(response, st1) := call cb [] st in
                   (VUndefined, await response (Resolve p) st1)
      | None => (VUndefined, await VUndefined (Resolve p) st)
      end
  end.

(** function runCallback(callback, ...arg) { callback(...arg); } *)
Definition runCallback (callback : Callback) (arg : list Value) (st : State) : State :=
  snd (call callback arg st).

(** ** The methods *)

Inductive Outcome :=
| Returned (st : State)
| Thrown (msg : string) (st : State)
| OutOfFuel.

Definition quote : string := String (Ascii.ascii_of_nat 34) EmptyString.

Definition once_error (event : string) : string :=
  ("Event " +:+ quote +:+ event +:+ quote
   +:+ " was supposed to be emitted only once")%string.

(** on(event, callback); the handle it returns is the pair it closes over. *)
Record BasicEventHandler := mkHandler {
  handler_event : string;
  handler_callback : Callback
}.

Definition on (event : string) (callback : Callback) (st : State)
  : BasicEventHandler * State :=
  (mkHandler event callback,
   match _oneTimeEvents st !! event with
   | Some arg => runCallback callback arg st
   | None => set_subscriptions
               (_subscriptions st ++ [mkSubscription event callback false]) st
   end).

(** The event the readiness flag is set through. *)
Definition internal_ready : string := "internal_ready"%string.

(** constructor() *)
Definition empty_state : State := mkState [] ∅ false [] [] [].

Definition constructor : State :=
  snd (on internal_ready InternalReady empty_state).

(** get prepared() *)
Definition prepared (st : State) : bool := _ready st.

(** clearEvents() *)
Definition clearEvents (st : State) : State :=
  set_oneTimeEvents ∅ (set_subscriptions [] st).

(** off(event, callback?): the filter keeps [s] when
    [s.event !== event || (callback && s.callback !== callback)]. *)
Definition off_keeps (event : string) (callback : option Callback)
  (s : Subscription) : bool :=
  negb (bool_decide (sub_event s = event))
  || match callback with
     | Some cb => negb (same_callback (sub_callback s) cb)
     | None => false
     end.

Definition off (event : string) (callback : option Callback) (st : State) : State :=
  set_subscriptions (List.filter (off_keeps event callback) (_subscriptions st)) st.

(** stop() and remove() of a handle *)
Definition stop (h : BasicEventHandler) (st : State) : State :=
  off (handler_event h) (Some (handler_callback h)) st.

Definition remove (h : BasicEventHandler) (st : State) : State := stop h st.

(** once(event, callback?) *)
Definition once (event : string) (callback : option Callback) (st : State)
  : nat * State :=
  let '(p, st0) := new_promise st in
  let ourCallback := OnceCallback p callback in
  (p,
   match _oneTimeEvents st0 !! event with
   | Some arg => runCallback ourCallback arg st0
   | None => set_subscriptions
               (_subscriptions st0 ++ [mkSubscription event ourCallback true]) st0
   end).

(** offOnce(event, callback?): the filter keeps [s] when
    [s.event !== event || (callback && s.callback !== callback) || !s.once]. *)
Definition offOnce_keeps (event : string) (callback : option Callback)
  (s : Subscription) : bool :=
  off_keeps event callback s || negb (sub_once s).

Definition offOnce (event : string) (callback : option Callback) (st : State) : State :=
  set_subscriptions (List.filter (offOnce_keeps event callback) (_subscriptions st)) st.

(** The [for] loop of emit over quiet function values, one iteration per
    unit of fuel.  [i] is the loop index at the test
    [i < this[_subscriptions].length]; after [splice(i, 1); i--] the
    increment brings the index back to [i].  The registry is read anew in
    each iteration, as in the source; a quiet callback leaves it alone.  The
    loop for listeners of any kind is the task [Loop] of [run], below, and
    the two agree on quiet registries. *)
Fixpoint emit_loop (fuel : nat) (event : string) (arg : list Value)
  (i : nat) (st : State) : option State :=
  match _subscriptions st !! i with
  | None => Some st
  | Some s =>
      match fuel with
      | O => None
      | S fuel' =>
          if bool_decide (sub_event s = event) then
            let st1 := runCallback (sub_callback s) arg st in
            if sub_once s then
              emit_loop fuel' event arg i
                (set_subscriptions (delete i (_subscriptions st1)) st1)
            else emit_loop fuel' event arg (S i) st1
          else emit_loop fuel' event arg (S i) st
      end
  end.

(** emit(event, ...arg) *)
Definition emit (event : string) (arg : list Value) (st : State) : Outcome :=
  match _oneTimeEvents st !! event with
  | Some _ => Thrown (once_error event) st
  | None =>
      match emit_loop (length (_subscriptions st)) event arg 0 st with
      | Some st' => Returned st'
      | None => OutOfFuel
      end
  end.

(** emitOnce(event, ...arg) *)
Definition emitOnce (event : string) (arg : list Value) (st : State) : Outcome :=
  match _oneTimeEvents st !! event with
  | Some _ => Thrown (once_error event) st
  | None =>
      match emit event arg st with
      | Returned st1 =>
          Returned (offOnce event None
                      (set_oneTimeEvents (<[event := arg]> (_oneTimeEvents st1)) st1))
      | other => other
      end
  end.

(** set prepared(value) { this.emit("internal_ready"); } *)
Definition set_prepared (value : bool) (st : State) : Outcome :=
  emit internal_ready [] st.

(** ready(callback?): the promise of the [async] method and the state when
    the call returns to its caller, before any microtask has run.  The body
    runs up to its first [await], or to its [return]: a prepared emitter
    calls the callback and awaits its result; otherwise the body makes the
    promise of [new Promise], runs its executor, and returns that promise,
    which the promise of the method adopts in a job. *)
Definition ready (callback : option Callback) (st : State) : nat * State :=
  let '(p, st0) := new_promise st in
  if _ready st0 then
    match callback with
    | Some cb =>
        let '(response, st1) := call cb [] st0 in
        (p, await response (ReturnResolved p) st1)
    | None => (p, await VUndefined (ReturnResolved p) st0)
    end
  else
    let '(q, st1) := new_promise st0 in
    let st2 := snd (once internal_ready (Some (ReadyCallback q callback)) st1) in
    (p, set_microtasks (microtasks st2 ++ [Adopt p q]) st2).

(** ** What a dispatch round is meant to do *)

Definition listens (event : string) (s : Subscription) : bool :=
  bool_decide (sub_event s = event).

Definition survives (event : string) (s : Subscription) : bool :=
  negb (listens event s && sub_once s).

(** The callbacks of [l] run one after the other, each once, on [arg]. *)
Definition dispatch (arg : list Value) (l : list Subscription) (st : State) : State :=
  foldl (λ st' s, runCallback (sub_callback s) arg st') st l.

(** The calls of caller functions that one invocation of [c] makes. *)
Fixpoint calls_of (c : Callback) (arg : list Value) : list Effect :=
  match c with
  | Listener id _ => [Called id arg]
  | InternalReady => []
  | OnceCallback _ (Some cb) => calls_of cb arg
  | ReadyCallback _ (Some cb) => calls_of cb []
  | _ => []
  end.

Definition is_call (e : Effect) : bool :=
  match e with Called _ _ => true | Settled _ _ => false end.

Definition calls (st : State) : list Effect := List.filter is_call (trace st).


(** A promise that is pending or holds undefined. *)
Definition unsettled_or_undefined (p : nat) (st : State) : Prop :=
  (∃ ks, promises st !! p = Some (Pending ks))
  ∨ promises st !! p = Some (Fulfilled VUndefined).

(** ** Two emitters: pipe and pipeOnce

    [pipe] and [pipeOnce] register on this emitter an arrow function that
    calls [emit] or [emitOnce] of a second emitter, [eventEmitter], and so
    can throw what these throw.  The registry that holds such arrows next to
    the function values of above is [piped]; [this] carries the other
    fields of this emitter and its run time (its own registry is not looked
    at), and [eventEmitter] is the second emitter, with listeners of the
    kind above.  The two are different emitters. *)

Inductive PipeCallback :=
| Own (c : Callback)
    (* a function value as above *)
| Forward (n : nat) (event : string)
    (* the arrow of pipe: (...arg) => { eventEmitter.emit(event, ...arg) };
       [n] is its reference identity *)
| ForwardOnce (p : nat) (event : string).
    (* ourCallback of the once in pipeOnce: resolve() for promise p, then
       the arrow (...arg) => { eventEmitter.emitOnce(event, ...arg) } *)

Definition same_pipe_callback (c1 c2 : PipeCallback) : bool :=
  match c1, c2 with
  | Own a, Own b => same_callback a b
  | Forward n _, Forward m _ => bool_decide (n = m)
  | ForwardOnce p _, ForwardOnce q _ => bool_decide (p = q)
  | _, _ => false
  end.

Record PipeSubscription := mkPipeSubscription {
  pipe_event : string;
  pipe_callback : PipeCallback;
  pipe_once : bool
}.

Record Emitters := mkEmitters {
  piped : list PipeSubscription;
  this : State;
  eventEmitter : State;
  arrows : nat
}.

Definition set_piped (l : list PipeSubscription) (w : Emitters) : Emitters :=
  mkEmitters l (this w) (eventEmitter w) (arrows w).

Definition set_emitters (st tg : State) (w : Emitters) : Emitters :=
  mkEmitters (piped w) st tg (arrows w).

(** A subscription of above in the registry [piped]. *)
Definition own (s : Subscription) : PipeSubscription :=
  mkPipeSubscription (sub_event s) (Own (sub_callback s)) (sub_once s).

Inductive CallOutcome :=
| Completed (st tg : State)
| Raised (msg : string) (st tg : State)
| Exhausted.

(** Calling a function of the registry, on the states of the two
    emitters. *)
Definition pipe_call (c : PipeCallback) (arg : list Value) (st tg : State)
  : CallOutcome :=
  match c with
  | Own f => Completed (runCallback f arg st) tg
  | Forward _ event =>
      match emit event arg tg with
      | Returned tg' => Completed st tg'
      | Thrown msg tg' => Raised msg st tg'
      | OutOfFuel => Exhausted
      end
  | ForwardOnce p event =>
      let st1 := resolve p VUndefined st in
      match emitOnce event arg tg with
      | Returned tg' => Completed st1 tg'
      | Thrown msg tg' => Raised msg st1 tg'
      | OutOfFuel => Exhausted
      end
  end.

Inductive PipeOutcome :=
| PipeReturned (w : Emitters)
| PipeThrown (msg : string) (w : Emitters)
| PipeOutOfFuel.

(** on(event, callback) of this emitter: a callback run on a sealed event
    may throw, and [on] with it. *)
Definition pipe_on (event : string) (callback : PipeCallback) (w : Emitters)
  : PipeOutcome :=
  match _oneTimeEvents (this w) !! event with
  | Some arg =>
      match pipe_call callback arg (this w) (eventEmitter w) with
      | Completed st tg => PipeReturned (set_emitters st tg w)
      | Raised msg st tg => PipeThrown msg (set_emitters st tg w)
      | Exhausted => PipeOutOfFuel
      end
  | None =>
      PipeReturned
        (set_piped (piped w ++ [mkPipeSubscription event callback false]) w)
  end.

(** off(event, callback?) of this emitter. *)
Definition pipe_off_keeps (event : string) (callback : option PipeCallback)
  (s : PipeSubscription) : bool :=
  negb (bool_decide (pipe_event s = event))
  || match callback with
     | Some cb => negb (same_pipe_callback (pipe_callback s) cb)
     | None => false
     end.

Definition pipe_off (event : string) (callback : option PipeCallback)
  (w : Emitters) : Emitters :=
  set_piped (List.filter (pipe_off_keeps event callback) (piped w)) w.

(** The loop of emit of this emitter.  A callback that throws ends it, and
    [splice] is not reached. *)
Fixpoint pipe_emit_loop (fuel : nat) (event : string) (arg : list Value)
  (i : nat) (w : Emitters) : PipeOutcome :=
  match piped w !! i with
  | None => PipeReturned w
  | Some s =>
      match fuel with
      | O => PipeOutOfFuel
      | S fuel' =>
          if bool_decide (pipe_event s = event) then
            match pipe_call (pipe_callback s) arg (this w) (eventEmitter w) with
            | Completed st tg =>
                let w1 := set_emitters st tg w in
                if pipe_once s then
                  pipe_emit_loop fuel' event arg i
                    (set_piped (delete i (piped w1)) w1)
                else pipe_emit_loop fuel' event arg (S i) w1
            | Raised msg st tg => PipeThrown msg (set_emitters st tg w)
            | Exhausted => PipeOutOfFuel
            end
          else pipe_emit_loop fuel' event arg (S i) w
      end
  end.

(** emit(event, ...arg) of this emitter. *)
Definition pipe_emit (event : string) (arg : list Value) (w : Emitters)
  : PipeOutcome :=
  match _oneTimeEvents (this w) !! event with
  | Some _ => PipeThrown (once_error event) w
  | None => pipe_emit_loop (length (piped w)) event arg 0 w
  end.

(** pipe(event, eventEmitter): the arrow it makes, which with [event] is
    what the handle closes over, and the outcome of [on]. *)
Definition pipe (event : string) (w : Emitters) : PipeCallback * PipeOutcome :=
  let arrow := Forward (arrows w) event in
  (arrow,
   pipe_on event arrow
     (mkEmitters (piped w) (this w) (eventEmitter w) (S (arrows w)))).

(** stop() of the handle of pipe. *)
Definition pipe_stop (event : string) (arrow : PipeCallback) (w : Emitters)
  : Emitters :=
  pipe_off event (Some arrow) w.

(** pipeOnce(event, eventEmitter): once(event, arrow).  On a sealed event
    [ourCallback] runs inside the executor of the promise; what the arrow
    throws there comes after resolve() and is dropped by the promise. *)
Definition pipeOnce (event : string) (w : Emitters) : nat * PipeOutcome :=
  let '(p, st0) := new_promise (this w) in
  let ourCallback := ForwardOnce p event in
  (p,
   match _oneTimeEvents st0 !! event with
   | Some arg =>
       match pipe_call ourCallback arg st0 (eventEmitter w) with
       | Completed st tg | Raised _ st tg => PipeReturned (set_emitters st tg w)
       | Exhausted => PipeOutOfFuel
       end
   | None =>
       PipeReturned
         (mkEmitters (piped w ++ [mkPipeSubscription event ourCallback true])
            st0 (eventEmitter w) (arrows w))
   end).

(** One round of the loop, told by the entries still to come: [pre] is
    what the loop has kept so far. *)
Fixpoint pipe_round (event : string) (arg : list Value)
  (pre rest : list PipeSubscription) (st tg : State) (n : nat) : PipeOutcome :=
  match rest with
  | [] => PipeReturned (mkEmitters pre st tg n)
  | s :: rest' =>
      if bool_decide (pipe_event s = event) then
        match pipe_call (pipe_callback s) arg st tg with
        | Completed st' tg' =>
            if pipe_once s then pipe_round event arg pre rest' st' tg' n
            else pipe_round event arg (pre ++ [s]) rest' st' tg' n
        | Raised msg st' tg' =>
            PipeThrown msg (mkEmitters (pre ++ s :: rest') st' tg' n)
        | Exhausted => PipeOutOfFuel
        end
      else pipe_round event arg (pre ++ [s]) rest' st tg n
  end.

(** A source with listeners [l] of its own and no arrow yet, and a target. *)
Definition emitters_of (st tg : State) : Emitters :=
  mkEmitters (map own (_subscriptions st)) st tg 0.

(** Every one-time subscription holds an [ourCallback] of [once]. *)
Definition once_entries_wrapped (st : State) : Prop :=
  ∀ s, s ∈ _subscriptions st → sub_once s = true →
       ∃ p callback, sub_callback s = OnceCallback p callback.

(** [n] microtasks, one after the other. *)
Definition run_microtasks (n : nat) (st : State) : State :=
  Nat.iter n run_microtask st.


(** ** Listeners that call the emitter or throw

    A function of the caller may do more than return: it may call the
    methods of the emitter it listens to, and it may throw.  [emit] has no
    guard against either: it reads this[_subscriptions] anew in every
    iteration, and a callback that throws leaves the loop.  The functions
    of above are the quiet ones; a [Script] is a function of the caller
    whose body is a list of calls on the emitter, in the table [scripts]
    (a function can name itself there, as a listener that stops itself does);
    [OurCallback] is [ourCallback] of [once] around a script.  The registry
    that can hold them is [listeners]; [emitter] carries the other fields
    and the run time, as [this] does for pipe.  Everything runs on fuel, one
    unit per step, since a script can emit the event it listens to. *)

Inductive Handler :=
| Quiet (c : Callback)
| Script (id : nat)
| OurCallback (p : nat) (f : Handler).

Inductive Action :=
| CallOn (event : string) (f : Handler)
| CallOnce (event : string) (f : option Handler)
| CallOff (event : string) (f : option Handler)
| CallOffOnce (event : string) (f : option Handler)
| CallClearEvents
| CallEmit (event : string) (arg : list Value)
| CallEmitOnce (event : string) (arg : list Value)
| CallReady (callback : option Callback)
    (* ready(callback?), with a quiet function or none *)
| SetPrepared (value : bool)
    (* prepared = value *)
| Throw (msg : string).

Definition same_handler (h1 h2 : Handler) : bool :=
  match h1, h2 with
  | Quiet a, Quiet b => same_callback a b
  | Script i, Script j => bool_decide (i = j)
  | OurCallback p _, OurCallback q _ => bool_decide (p = q)
  | _, _ => false
  end.

Definition quiet (h : Handler) : Prop :=
  match h with Quiet _ => True | _ => False end.

Record Registration := mkRegistration {
  reg_event : string;
  reg_callback : Handler;
  reg_once : bool
}.

Record Reentrant := mkReentrant {
  listeners : list Registration;
  emitter : State;
  scripts : gmap nat (list Action)
}.

Definition set_listeners (l : list Registration) (w : Reentrant) : Reentrant :=
  mkReentrant l (emitter w) (scripts w).

Definition set_emitter (st : State) (w : Reentrant) : Reentrant :=
  mkReentrant (listeners w) st (scripts w).

(** [ourCallback] of once(event, f). *)
Definition wrap (p : nat) (f : option Handler) : Handler :=
  match f with
  | None => Quiet (OnceCallback p None)
  | Some (Quiet c) => Quiet (OnceCallback p (Some c))
  | Some h => OurCallback p h
  end.

(** The filters of off and offOnce. *)
Definition reentrant_off_keeps (event : string) (f : option Handler)
  (s : Registration) : bool :=
  negb (bool_decide (reg_event s = event))
  || match f with
     | Some h => negb (same_handler (reg_callback s) h)
     | None => false
     end.

Definition reentrant_off (event : string) (f : option Handler) (w : Reentrant)
  : Reentrant :=
  set_listeners (List.filter (reentrant_off_keeps event f) (listeners w)) w.

Definition reentrant_offOnce (event : string) (f : option Handler)
  (w : Reentrant) : Reentrant :=
  set_listeners
    (List.filter (λ s, reentrant_off_keeps event f s || negb (reg_once s))
       (listeners w)) w.

Inductive Task :=
| Emit (event : string) (arg : list Value)
    (* emit(event, ...arg) *)
| Loop (event : string) (arg : list Value) (i : nat)
    (* the [for] loop of emit, at the test of index [i] *)
| EmitOnce (event : string) (arg : list Value)
    (* emitOnce(event, ...arg) *)
| Invoke (f : Handler) (arg : list Value)
    (* f(...arg) *)
| Body (actions : list Action)
    (* what is left of the body of a script *)
| Do (a : Action).
    (* one call of a method, or a throw *)

Inductive Result :=
| Finished (w : Reentrant)
| Threw (msg : string) (w : Reentrant)
| NoFuel.

Fixpoint run (fuel : nat) (t : Task) (w : Reentrant) : Result :=
  match fuel with
  | O => NoFuel
  | S fuel =>
      match t with
      | Emit event arg =>
          match _oneTimeEvents (emitter w) !! event with
          | Some _ => Threw (once_error event) w
          | None => run fuel (Loop event arg 0) w
          end
      | Loop event arg i =>
          match listeners w !! i with
          | None => Finished w
          | Some s =>
              if bool_decide (reg_event s = event) then
                match run fuel (Invoke (reg_callback s) arg) w with
                | Finished w1 =>
                    if reg_once s then
                      run fuel (Loop event arg i)
                        (set_listeners (delete i (listeners w1)) w1)
                    else run fuel (Loop event arg (S i)) w1
                | other => other
                end
              else run fuel (Loop event arg (S i)) w
          end
      | EmitOnce event arg =>
          match _oneTimeEvents (emitter w) !! event with
          | Some _ => Threw (once_error event) w
          | None =>
              match run fuel (Emit event arg) w with
              | Finished w1 =>
                  Finished
                    (reentrant_offOnce event None
                       (set_emitter
                          (set_oneTimeEvents
                             (<[event := arg]> (_oneTimeEvents (emitter w1)))
                             (emitter w1)) w1))
              | other => other
              end
          end
      | Invoke (Quiet c) arg =>
          Finished (set_emitter (runCallback c arg (emitter w)) w)
      | Invoke (Script id) arg =>
          run fuel (Body (default [] (scripts w !! id)))
            (set_emitter (record (Called id arg) (emitter w)) w)
      | Invoke (OurCallback p f) arg =>
          run fuel (Invoke f arg)
            (set_emitter (resolve p VUndefined (emitter w)) w)
      | Body [] => Finished w
      | Body (a :: rest) =>
          match run fuel (Do a) w with
          | Finished w1 => run fuel (Body rest) w1
          | other => other
          end
      | Do (CallOn event f) =>
          match _oneTimeEvents (emitter w) !! event with
          | Some arg => run fuel (Invoke f arg) w
          | None =>
              Finished
                (set_listeners
                   (listeners w ++ [mkRegistration event f false]) w)
          end
      | Do (CallOnce event f) =>
          let '(p, st0) := new_promise (emitter w) in
          let w0 := set_emitter st0 w in
          match _oneTimeEvents st0 !! event with
          | Some arg =>
              (* inside the executor: a throw after resolve() is dropped *)
              match run fuel (Invoke (wrap p f) arg) w0 with
              | Finished w1 | Threw _ w1 => Finished w1
              | NoFuel => NoFuel
              end
          | None =>
              Finished
                (set_listeners
                   (listeners w0 ++ [mkRegistration event (wrap p f) true]) w0)
          end
      | Do (CallOff event f) => Finished (reentrant_off event f w)
      | Do (CallOffOnce event f) => Finished (reentrant_offOnce event f w)
      | Do CallClearEvents =>
          Finished
            (mkReentrant [] (set_oneTimeEvents ∅ (emitter w)) (scripts w))
      | Do (CallEmit event arg) => run fuel (Emit event arg) w
      | Do (CallEmitOnce event arg) => run fuel (EmitOnce event arg) w
      | Do (CallReady callback) =>
          let '(p, st0) := new_promise (emitter w) in
          if _ready st0 then
            match callback with
            | Some cb =>
                let '(response, st1) := call cb [] st0 in
                Finished (set_emitter (await response (ReturnResolved p) st1) w)
            | None =>
                Finished
                  (set_emitter (await VUndefined (ReturnResolved p) st0) w)
            end
          else
            let '(q, st1) := new_promise st0 in
            match run fuel
                    (Do (CallOnce internal_ready
                           (Some (Quiet (ReadyCallback q callback)))))
                    (set_emitter st1 w) with
            | Finished w2 =>
                Finished
                  (set_emitter
                     (set_microtasks (microtasks (emitter w2) ++ [Adopt p q])
                        (emitter w2)) w2)
            | other => other
            end
      | Do (SetPrepared value) => run fuel (Emit internal_ready []) w
      | Do (Throw msg) => Threw msg w
      end
  end.

(** An emitter of above whose caller has the functions [bodies]. *)
Definition quiet_registration (s : Subscription) : Registration :=
  mkRegistration (sub_event s) (Quiet (sub_callback s)) (sub_once s).

Definition reentrant_of (st : State) (bodies : gmap nat (list Action))
  : Reentrant :=
  mkReentrant (map quiet_registration (_subscriptions st)) st bodies.

(** What a round over quiet listeners is meant to do. *)
Definition hears (event : string) (s : Registration) : bool :=
  bool_decide (reg_event s = event).

Definition stays (event : string) (s : Registration) : bool :=
  negb (hears event s && reg_once s).

Definition quiet_round (arg : list Value) (l : list Registration) (st : State)
  : State :=
  foldl (λ st' s, match reg_callback s with
                  | Quiet c => runCallback c arg st'
                  | _ => st'
                  end) st l.

Definition quiet_calls (arg : list Value) (s : Registration) : list Effect :=
  match reg_callback s with
  | Quiet c => calls_of c arg
  | _ => []
  end.

(** ** Scenarios used below *)

Definition greeter : Callback := Listener 1 (λ _, VNum 7).
Definition logger : Callback := Listener 2 (λ _, VUndefined).
Definition greet : string := "greet"%string.
Definition boot : string := "boot"%string.
Definition Alice : list Value := [VStr "Alice"].

(** on("greet", greeter); once("greet", logger); once("greet");
    on("boot", logger); on("greet", logger) on a new emitter. *)
Definition busy_state : State :=
  let st1 := snd (on greet greeter constructor) in
  let st2 := snd (once greet (Some logger) st1) in
  let st3 := snd (once greet None st2) in
  let st4 := snd (on boot logger st3) in
  snd (on greet logger st4).

(** emitOnce("boot", 42) on a new emitter. *)
Definition sealed_state : State :=
  match emitOnce boot [VNum 42] constructor with
  | Returned st => st
  | _ => constructor
  end.

(** once("greet", greeter) on a new emitter. *)
Definition once_greet : nat * State := once greet (Some greeter) constructor.

(** A new emitter after prepared = true. *)
Definition prepared_state : State :=
  match set_prepared true constructor with
  | Returned st => st
  | _ => constructor
  end.

(** A prepared emitter next to a promise, [0], of the caller's own, and an
    asynchronous callback that returns it. *)
Definition fetching_state : State := snd (new_promise prepared_state).
Definition fetcher : Callback := Listener 3 (λ _, VPromise 0).

(** A target with one listener of "greet", and a source, [busy_state],
    piped to it. *)
Definition listening_target : State := snd (on greet logger constructor).

Definition sealed_target : State :=
  match emitOnce greet [VNum 0] constructor with
  | Returned st => st
  | _ => constructor
  end.

(** A caller whose listeners use the emitter: [stops_itself] calls the
    [stop] of its own handle, [stops_boot] calls off("boot"), [thrower]
    throws. *)
Definition stops_itself : Handler := Script 4.
Definition thrower : Handler := Script 6.
Definition bodies : gmap nat (list Action) :=
  <[4 := [CallOff greet (Some stops_itself)]]>
    (<[5 := [CallOff boot None]]>
       (<[6 := [Throw "boom"%string]]> ∅)).
Definition new_emitter : Reentrant := reentrant_of constructor bodies.
Definition busy_emitter : Reentrant := reentrant_of busy_state bodies.
Definition sealed_emitter : Reentrant := reentrant_of sealed_state bodies.
Definition Bob : list Value := [VStr "Bob"].

(** * Properties *)

(** Induction that reaches the callback a wrapper closes over. *)
Lemma Callback_induction (P : Callback → Prop) :
  (∀ id ret, P (Listener id ret)) →
  P InternalReady →
  (∀ p cb, P cb → P (OnceCallback p (Some cb))) →
  (∀ p, P (OnceCallback p None)) →
  (∀ p cb, P cb → P (ReadyCallback p (Some cb))) →
  (∀ p, P (ReadyCallback p None)) →
  ∀ c, P c.
Proof.
  intros HL HI HO1 HO0 HR1 HR0. fix IH 1.
  intros [id ret| |p [cb|]|p [cb|]];
    [apply HL | apply HI | apply HO1, IH | apply HO0 | apply HR1, IH | apply HR0].
Qed.

Ltac outcome_cases :=
  intros;
  repeat match goal with
         | H : ∃ _, _ |- _ => destruct H
         | H : _ ∧ _ |- _ => destruct H
         | H : is_Some None |- _ => destruct H as [? ?]
         end;
  try discriminate; eauto.


(** ** Callbacks leave the registry and the sealed events alone *)

Section Frame.

Lemma resolve_subscriptions p v st :
  _subscriptions (resolve p v st) = _subscriptions st.
Proof. unfold resolve. by destruct (promises st !! p) as [[ks|w]|]. Qed.

Lemma resolve_oneTimeEvents p v st :
  _oneTimeEvents (resolve p v st) = _oneTimeEvents st.
Proof. unfold resolve. by destruct (promises st !! p) as [[ks|w]|]. Qed.

Lemma resolve_ready p v st : _ready (resolve p v st) = _ready st.
Proof. unfold resolve. by destruct (promises st !! p) as [[ks|w]|]. Qed.

Lemma resolve_calls p v st : calls (resolve p v st) = calls st.
Proof.
  unfold resolve, calls. destruct (promises st !! p) as [[ks|w]|]; try done.
  cbn. by rewrite List.filter_app, app_nil_r.
Qed.

Lemma resolve_set_subscriptions p v l st :
  resolve p v (set_subscriptions l st) = set_subscriptions l (resolve p v st).
Proof. unfold resolve. cbn. by destruct (promises st !! p) as [[ks|w]|]. Qed.

Lemma await_subscriptions v k st :
  _subscriptions (await v k st) = _subscriptions st.
Proof.
  destruct v; try done. unfold await.
  by destruct (promises st !! p) as [[ks|w]|].
Qed.

Lemma await_oneTimeEvents v k st :
  _oneTimeEvents (await v k st) = _oneTimeEvents st.
Proof.
  destruct v; try done. unfold await.
  by destruct (promises st !! p) as [[ks|w]|].
Qed.

Lemma await_ready v k st : _ready (await v k st) = _ready st.
Proof.
  destruct v; try done. unfold await.
  by destruct (promises st !! p) as [[ks|w]|].
Qed.

Lemma await_trace v k st : trace (await v k st) = trace st.
Proof.
  destruct v; try done. unfold await.
  by destruct (promises st !! p) as [[ks|w]|].
Qed.

Lemma await_set_subscriptions v k l st :
  await v k (set_subscriptions l st) = set_subscriptions l (await v k st).
Proof.
  destruct v; try done. unfold await. cbn.
  by destruct (promises st !! p) as [[ks|w]|].
Qed.

Lemma call_subscriptions c : ∀ arg st,
  _subscriptions (snd (call c arg st)) = _subscriptions st.
Proof.
  induction c as [id ret| |p cb IH|p|p cb IH|p] using Callback_induction;
    intros arg st; cbn.
  - done.
  - done.
  - rewrite IH. apply resolve_subscriptions.
  - apply resolve_subscriptions.
  - specialize (IH [] st). destruct (call cb [] st) as [r st1]. cbn in *.
    by rewrite await_subscriptions.
  - done.
Qed.

Lemma call_oneTimeEvents c : ∀ arg st,
  _oneTimeEvents (snd (call c arg st)) = _oneTimeEvents st.
Proof.
  induction c as [id ret| |p cb IH|p|p cb IH|p] using Callback_induction;
    intros arg st; cbn.
  - done.
  - done.
  - rewrite IH. apply resolve_oneTimeEvents.
  - apply resolve_oneTimeEvents.
  - specialize (IH [] st). destruct (call cb [] st) as [r st1]. cbn in *.
    by rewrite await_oneTimeEvents.
  - done.
Qed.

(** No callback clears the flag. *)
Lemma call_ready c : ∀ arg st,
  _ready st = true → _ready (snd (call c arg st)) = true.
Proof.
  induction c as [id ret| |p cb IH|p|p cb IH|p] using Callback_induction;
    intros arg st Hr; cbn.
  - done.
  - done.
  - apply IH. by rewrite resolve_ready.
  - by rewrite resolve_ready.
  - specialize (IH [] st Hr). destruct (call cb [] st) as [r st1]. cbn in *.
    by rewrite await_ready.
  - done.
Qed.

Lemma call_calls c : ∀ arg st,
  calls (snd (call c arg st)) = calls st ++ calls_of c arg.
Proof.
  induction c as [id ret| |p cb IH|p|p cb IH|p] using Callback_induction;
    intros arg st; cbn.
  - unfold calls. cbn. by rewrite List.filter_app.
  - by rewrite app_nil_r.
  - by rewrite IH, resolve_calls.
  - by rewrite resolve_calls, app_nil_r.
  - specialize (IH [] st). destruct (call cb [] st) as [r st1]. cbn in *.
    unfold calls in *. by rewrite await_trace.
  - by rewrite app_nil_r.
Qed.

Lemma call_set_subscriptions c : ∀ arg l st,
  call c arg (set_subscriptions l st)
  = (fst (call c arg st), set_subscriptions l (snd (call c arg st))).
Proof.
  induction c as [id ret| |p cb IH|p|p cb IH|p] using Callback_induction;
    intros arg l st; cbn.
  - done.
  - done.
  - rewrite resolve_set_subscriptions, IH. reflexivity.
  - by rewrite resolve_set_subscriptions.
  - rewrite IH. destruct (call cb [] st) as [r st1]. cbn.
    by rewrite await_set_subscriptions.
  - done.
Qed.

(** A promise that holds a value keeps it. *)
Lemma resolve_fulfilled q w st p v :
  promises st !! p = Some (Fulfilled v) →
  promises (resolve q w st) !! p = Some (Fulfilled v).
Proof.
  intros Hp. unfold resolve.
  destruct (promises st !! q) as [[ks|u]|] eqn:Hq; try done. cbn.
  rewrite list_lookup_insert_ne; [done|]. intros ->. congruence.
Qed.

Lemma await_fulfilled u k st p v :
  promises st !! p = Some (Fulfilled v) →
  promises (await u k st) !! p = Some (Fulfilled v).
Proof.
  intros Hp. destruct u as [| | | |q]; try done. unfold await.
  destruct (promises st !! q) as [[ks|w]|] eqn:Hq; try done. cbn.
  rewrite list_lookup_insert_ne; [done|]. intros ->. congruence.
Qed.

Lemma call_fulfilled c p v : ∀ arg st,
  promises st !! p = Some (Fulfilled v) →
  promises (snd (call c arg st)) !! p = Some (Fulfilled v).
Proof.
  induction c as [id ret| |q cb IH|q|q cb IH|q] using Callback_induction;
    intros arg st Hp; cbn.
  - done.
  - done.
  - by apply IH, resolve_fulfilled.
  - by apply resolve_fulfilled.
  - specialize (IH [] st Hp). destruct (call cb [] st) as [r st1]. cbn in *.
    by apply await_fulfilled.
  - done.
Qed.

(** During a dispatch promises are only ever settled with undefined, by
    [ourCallback] of [once]: a promise that is pending or holds undefined
    remains so. *)
Lemma resolve_unsettled q st p :
  unsettled_or_undefined p st →
  unsettled_or_undefined p (resolve q VUndefined st).
Proof.
  intros Hp. unfold resolve.
  destruct (promises st !! q) as [[ks|u]|] eqn:Hq; try done.
  unfold unsettled_or_undefined. cbn.
  destruct (decide (q = p)) as [->|Hne].
  - right. apply list_lookup_insert_eq. by eapply lookup_lt_Some.
  - by rewrite list_lookup_insert_ne.
Qed.

Lemma await_unsettled u k st p :
  unsettled_or_undefined p st → unsettled_or_undefined p (await u k st).
Proof.
  intros Hp. destruct u as [| | | |q]; try done. unfold await.
  destruct (promises st !! q) as [[ks|w]|] eqn:Hq; try done.
  unfold unsettled_or_undefined. cbn.
  destruct (decide (q = p)) as [->|Hne].
  - left. eexists. apply list_lookup_insert_eq. by eapply lookup_lt_Some.
  - by rewrite list_lookup_insert_ne.
Qed.

Lemma call_unsettled c p : ∀ arg st,
  unsettled_or_undefined p st →
  unsettled_or_undefined p (snd (call c arg st)).
Proof.
  induction c as [id ret| |q cb IH|q|q cb IH|q] using Callback_induction;
    intros arg st Hp; cbn.
  - done.
  - done.
  - by apply IH, resolve_unsettled.
  - by apply resolve_unsettled.
  - specialize (IH [] st Hp). destruct (call cb [] st) as [r st1]. cbn in *.
    by apply await_unsettled.
  - by apply (await_unsettled VUndefined).
Qed.

(** [ourCallback] of [once] leaves its promise holding undefined. *)
Lemma runCallback_once_fulfils p callback arg st :
  unsettled_or_undefined p st →
  promises (runCallback (OnceCallback p callback) arg st) !! p
  = Some (Fulfilled VUndefined).
Proof.
  intros Hp.
  assert (promises (resolve p VUndefined st) !! p = Some (Fulfilled VUndefined))
    as Hres.
  { unfold resolve. destruct Hp as [[ks Hp]|Hp]; rewrite Hp; [|done].
    cbn. apply list_lookup_insert_eq. by eapply lookup_lt_Some. }
  unfold runCallback. cbn. destruct callback as [cb|]; cbn; [|done].
  by apply call_fulfilled.
Qed.

End Frame.

(** ** The loop of [emit] *)

Section Dispatch.

Lemma set_subscriptions_twice l l' st :
  set_subscriptions l (set_subscriptions l' st) = set_subscriptions l st.
Proof. reflexivity. Qed.

Lemma set_subscriptions_same st l :
  _subscriptions st = l → set_subscriptions l st = st.
Proof. intros <-. by destruct st. Qed.

Lemma runCallback_set_subscriptions c arg l st :
  runCallback c arg (set_subscriptions l st)
  = set_subscriptions l (runCallback c arg st).
Proof. unfold runCallback. by rewrite call_set_subscriptions. Qed.

Lemma dispatch_set_subscriptions arg subs : ∀ l st,
  dispatch arg subs (set_subscriptions l st)
  = set_subscriptions l (dispatch arg subs st).
Proof.
  induction subs as [|s subs IH]; intros l st; cbn; [done|].
  rewrite runCallback_set_subscriptions. apply IH.
Qed.

Lemma dispatch_subscriptions arg subs : ∀ st,
  _subscriptions (dispatch arg subs st) = _subscriptions st.
Proof.
  induction subs as [|s subs IH]; intros st; cbn; [done|].
  unfold dispatch in IH. rewrite IH. apply call_subscriptions.
Qed.

Lemma dispatch_oneTimeEvents arg subs : ∀ st,
  _oneTimeEvents (dispatch arg subs st) = _oneTimeEvents st.
Proof.
  induction subs as [|s subs IH]; intros st; cbn; [done|].
  unfold dispatch in IH. rewrite IH. apply call_oneTimeEvents.
Qed.

Lemma dispatch_ready arg subs : ∀ st,
  _ready st = true → _ready (dispatch arg subs st) = true.
Proof.
  induction subs as [|s subs IH]; intros st Hr; cbn; [done|].
  apply IH, call_ready, Hr.
Qed.

Lemma dispatch_calls arg subs : ∀ st,
  calls (dispatch arg subs st)
  = calls st ++ flat_map (λ s, calls_of (sub_callback s) arg) subs.
Proof.
  induction subs as [|s subs IH]; intros st; cbn.
  - by rewrite app_nil_r.
  - unfold dispatch in IH. rewrite IH. unfold runCallback.
    by rewrite call_calls, <- app_assoc.
Qed.

Lemma emit_calls event arg l st :
  calls (set_subscriptions l
           (dispatch arg (List.filter (listens event) (_subscriptions st)) st))
  = calls st ++ flat_map (λ s, calls_of (sub_callback s) arg)
                  (List.filter (listens event) (_subscriptions st)).
Proof. unfold calls at 1. cbn. apply dispatch_calls. Qed.

Lemma listens_own event callback once_flag :
  listens event (mkSubscription event callback once_flag) = true.
Proof. by apply bool_decide_eq_true_2. Qed.

Lemma dispatch_app arg l1 l2 st :
  dispatch arg (l1 ++ l2) st = dispatch arg l2 (dispatch arg l1 st).
Proof. apply foldl_app. Qed.

(** With the entries before the index already visited and [rest] still to
    come, the loop runs the listeners of [rest] in order and keeps of
    [rest] what is not a one-time listener of the event. *)
Lemma emit_loop_spec event arg rest : ∀ fuel pre st,
  _subscriptions st = pre ++ rest →
  length rest ≤ fuel →
  emit_loop fuel event arg (length pre) st
  = Some (set_subscriptions (pre ++ List.filter (survives event) rest)
            (dispatch arg (List.filter (listens event) rest) st)).
Proof.
  induction rest as [|s rest IH]; intros fuel pre st Hsubs Hfuel.
  - rewrite app_nil_r in Hsubs.
    assert (_subscriptions st !! length pre = None) as Hnone
      by (rewrite Hsubs; by apply lookup_ge_None_2).
    destruct fuel; cbn; rewrite Hnone, app_nil_r;
      by rewrite set_subscriptions_same.
  - assert (_subscriptions st !! length pre = Some s) as Hsome
      by (rewrite Hsubs; apply list_lookup_middle; done).
    destruct fuel as [|fuel]; [cbn in Hfuel; lia|].
    cbn [emit_loop]. rewrite Hsome. cbn [List.filter].
    unfold survives at 1. fold (listens event s).
    destruct (listens event s) eqn:Hl; cbn [andb negb].
    + set (st1 := runCallback (sub_callback s) arg st).
      assert (_subscriptions st1 = pre ++ s :: rest) as Hsubs1
        by (unfold st1, runCallback; by rewrite call_subscriptions).
      destruct (sub_once s) eqn:Ho; cbn [negb].
      * rewrite Hsubs1, delete_middle.
        rewrite (IH fuel pre); [|done|cbn in Hfuel; lia].
        by rewrite dispatch_set_subscriptions, set_subscriptions_twice.
      * replace (S (length pre)) with (length (pre ++ [s]))
          by (rewrite length_app; cbn; lia).
        rewrite (IH fuel (pre ++ [s]));
          [|by rewrite <- app_assoc|cbn in Hfuel; lia].
        by rewrite <- app_assoc.
    + replace (S (length pre)) with (length (pre ++ [s]))
        by (rewrite length_app; cbn; lia).
      rewrite (IH fuel (pre ++ [s]));
        [|by rewrite <- app_assoc|cbn in Hfuel; lia].
      by rewrite <- app_assoc.
Qed.

(** More fuel than the registry is long changes nothing. *)
Lemma emit_loop_fuel event arg st fuel :
  length (_subscriptions st) ≤ fuel →
  emit_loop fuel event arg 0 st
  = emit_loop (length (_subscriptions st)) event arg 0 st.
Proof.
  intros Hfuel.
  pose proof (emit_loop_spec event arg (_subscriptions st) fuel [] st
                eq_refl Hfuel) as H1.
  pose proof (emit_loop_spec event arg (_subscriptions st) _ [] st
                eq_refl (Nat.le_refl _)) as H2.
  cbn [length] in H1, H2. congruence.
Qed.

Lemma emit_unsealed event arg st :
  _oneTimeEvents st !! event = None →
  emit event arg st
  = Returned (set_subscriptions
                (List.filter (survives event) (_subscriptions st))
                (dispatch arg (List.filter (listens event) (_subscriptions st)) st)).
Proof.
  intros Hnone. unfold emit. rewrite Hnone.
  pose proof (emit_loop_spec event arg (_subscriptions st) _ [] st
                eq_refl (Nat.le_refl _)) as H.
  cbn [length] in H. by rewrite H.
Qed.

Lemma emit_sealed event arg st a :
  _oneTimeEvents st !! event = Some a →
  emit event arg st = Thrown (once_error event) st.
Proof. intros Hsome. unfold emit. by rewrite Hsome. Qed.

Lemma dispatch_unsettled arg subs p : ∀ st,
  unsettled_or_undefined p st →
  unsettled_or_undefined p (dispatch arg subs st).
Proof.
  induction subs as [|s subs IH]; intros st Hp; cbn; [done|].
  by apply IH, call_unsettled.
Qed.

End Dispatch.

(** ** Lists kept or emptied by a filter *)

Lemma filter_keeps_all {A} (f : A → bool) (l : list A) :
  (∀ x, x ∈ l → f x = true) → List.filter f l = l.
Proof.
  induction l as [|x l IH]; intros Hall; cbn; [done|].
  rewrite (Hall x) by apply list_elem_of_here.
  f_equal. apply IH. intros y Hy. apply Hall. by apply list_elem_of_further.
Qed.

Lemma filter_keeps_none {A} (f : A → bool) (l : list A) :
  (∀ x, x ∈ l → f x = false) → List.filter f l = [].
Proof.
  induction l as [|x l IH]; intros Hall; cbn; [done|].
  rewrite (Hall x) by apply list_elem_of_here.
  apply IH. intros y Hy. apply Hall. by apply list_elem_of_further.
Qed.

Lemma elem_of_List_filter {A} (f : A → bool) (l : list A) x :
  x ∈ List.filter f l ↔ x ∈ l ∧ f x = true.
Proof. rewrite !list_elem_of_In. apply List.filter_In. Qed.

Lemma listens_false event s : sub_event s ≠ event → listens event s = false.
Proof. intros Hne. by apply bool_decide_eq_false_2. Qed.

Lemma listens_true event s : listens event s = true → sub_event s = event.
Proof. apply bool_decide_eq_true_1. Qed.

Lemma same_callback_refl c : same_callback c c = true.
Proof. destruct c; cbn; try done; by apply bool_decide_eq_true_2. Qed.


(** ** emit *)

(** Two one-time listeners in a row: the second is not skipped. *)
Example emit_busy_state :
  ∃ st', emit greet Alice busy_state = Returned st'
    ∧ trace st' = [Called 1 Alice; Settled 0 VUndefined; Called 2 Alice;
                   Settled 1 VUndefined; Called 2 Alice]
    ∧ _subscriptions st'
      = [mkSubscription internal_ready InternalReady false;
         mkSubscription greet greeter false;
         mkSubscription boot logger false;
         mkSubscription greet logger false].
Proof. eexists. split; [vm_compute; reflexivity|]. split; reflexivity. Qed.

(** ** emit with listeners that call the emitter or throw *)

Section Reentrancy.

Lemma run_emit fuel event arg w :
  run (S fuel) (Emit event arg) w
  = match _oneTimeEvents (emitter w) !! event with
    | Some _ => Threw (once_error event) w
    | None => run fuel (Loop event arg 0) w
    end.
Proof. reflexivity. Qed.

Lemma run_loop fuel event arg i w :
  run (S fuel) (Loop event arg i) w
  = match listeners w !! i with
    | None => Finished w
    | Some s =>
        if bool_decide (reg_event s = event) then
          match run fuel (Invoke (reg_callback s) arg) w with
          | Finished w1 =>
              if reg_once s then
                run fuel (Loop event arg i)
                  (set_listeners (delete i (listeners w1)) w1)
              else run fuel (Loop event arg (S i)) w1
          | other => other
          end
        else run fuel (Loop event arg (S i)) w
    end.
Proof. reflexivity. Qed.

Lemma run_emitOnce fuel event arg w :
  run (S fuel) (EmitOnce event arg) w
  = match _oneTimeEvents (emitter w) !! event with
    | Some _ => Threw (once_error event) w
    | None =>
        match run fuel (Emit event arg) w with
        | Finished w1 =>
            Finished
              (reentrant_offOnce event None
                 (set_emitter
                    (set_oneTimeEvents
                       (<[event := arg]> (_oneTimeEvents (emitter w1)))
                       (emitter w1)) w1))
        | other => other
        end
    end.
Proof. reflexivity. Qed.

Lemma run_invoke_quiet fuel c arg w :
  run (S fuel) (Invoke (Quiet c) arg) w
  = Finished (set_emitter (runCallback c arg (emitter w)) w).
Proof. reflexivity. Qed.

Lemma run_invoke_thrower fuel id arg msg rest w :
  scripts w !! id = Some (Throw msg :: rest) →
  run (S (S (S fuel))) (Invoke (Script id) arg) w
  = Threw msg (set_emitter (record (Called id arg) (emitter w)) w).
Proof.
  intros H. cbn. by rewrite H.
Qed.

(** The loop over a stretch of the registry whose listeners of the event
    are quiet: one unit of fuel per entry. *)
Lemma loop_over_quiet event arg bodies : ∀ mid pre rest st f,
  (∀ s, s ∈ mid → reg_event s = event → quiet (reg_callback s)) →
  run (length mid + S (S f)) (Loop event arg (length pre))
    (mkReentrant (pre ++ mid ++ rest) st bodies)
  = run (S (S f))
      (Loop event arg (length (pre ++ List.filter (stays event) mid)))
      (mkReentrant ((pre ++ List.filter (stays event) mid) ++ rest)
         (quiet_round arg (List.filter (hears event) mid) st) bodies).
Proof.
  induction mid as [|s mid IH]; intros pre rest st f Hq.
  - cbn [length List.filter Nat.add quiet_round foldl app].
    by rewrite !app_nil_r.
  - assert (∀ s', s' ∈ mid → reg_event s' = event → quiet (reg_callback s'))
      as Hq' by (intros s' Hin; apply Hq; by right).
    cbn [length Nat.add]. rewrite run_loop. cbn [listeners].
    change ((s :: mid) ++ rest) with (s :: mid ++ rest).
    rewrite list_lookup_middle by done.
    cbn [List.filter].
    change (stays event s) with (negb (hears event s && reg_once s)).
    change (bool_decide (reg_event s = event)) with (hears event s).
    destruct (hears event s) eqn:Hev.
    + unfold hears in Hev. apply bool_decide_eq_true in Hev.
      pose proof (Hq s ltac:(by left) Hev) as Hs.
      destruct s as [e [c|id|p h] o]; cbn in Hs; try done.
      cbn [reg_callback reg_once reg_event andb negb].
      rewrite Nat.add_succ_r, run_invoke_quiet.
      unfold set_emitter. cbn [emitter listeners scripts].
      destruct o; cbn [negb].
      * unfold set_listeners. cbn [emitter scripts listeners].
        rewrite delete_middle, <- Nat.add_succ_r.
        rewrite IH by exact Hq'. reflexivity.
      * replace (S (length pre))
          with (length (pre ++ [mkRegistration e (Quiet c) false]))
          by (rewrite length_app; cbn; lia).
        rewrite (cons_middle _ pre (mid ++ rest)), app_assoc, <- Nat.add_succ_r.
        rewrite IH by exact Hq'. by rewrite <- !app_assoc.
    + cbn [andb negb].
      replace (S (length pre)) with (length (pre ++ [s]))
        by (rewrite length_app; cbn; lia).
      rewrite (cons_middle _ pre (mid ++ rest)), app_assoc.
      rewrite IH by exact Hq'. by rewrite <- !app_assoc.
Qed.

(** [emit] on an unsealed event whose listeners are quiet. *)
Lemma run_emit_quiet event arg w fuel :
  _oneTimeEvents (emitter w) !! event = None →
  (∀ s, s ∈ listeners w → reg_event s = event → quiet (reg_callback s)) →
  length (listeners w) + 3 ≤ fuel →
  run fuel (Emit event arg) w
  = Finished
      (mkReentrant (List.filter (stays event) (listeners w))
         (quiet_round arg (List.filter (hears event) (listeners w)) (emitter w))
         (scripts w)).
Proof.
  intros Hnone Hq Hfuel. destruct w as [l st b]. cbn in *.
  replace fuel with (S (length l + S (S (fuel - length l - 3)))) by lia.
  rewrite run_emit. cbn [emitter]. rewrite Hnone.
  pose proof (loop_over_quiet event arg b l [] [] st (fuel - length l - 3) Hq)
    as Hloop.
  cbn [app length] in Hloop. rewrite app_nil_r in Hloop. rewrite Hloop.
  rewrite run_loop. cbn [listeners].
  rewrite app_nil_r. by rewrite lookup_ge_None_2.
Qed.

Lemma quiet_round_calls arg l : ∀ st,
  calls (quiet_round arg l st) = calls st ++ flat_map (quiet_calls arg) l.
Proof.
  induction l as [|s l IH]; intros st; [cbn; by rewrite app_nil_r|].
  change (quiet_round arg (s :: l) st)
    with (quiet_round arg l
            match reg_callback s with
            | Quiet c => runCallback c arg st
            | _ => st
            end).
  rewrite IH. cbn [flat_map].
  change (quiet_calls arg s)
    with (match reg_callback s with Quiet c => calls_of c arg | _ => [] end).
  destruct (reg_callback s) as [c| |]; [|done..].
  unfold runCallback. by rewrite call_calls, app_assoc.
Qed.

Lemma quiet_round_oneTimeEvents arg l : ∀ st,
  _oneTimeEvents (quiet_round arg l st) = _oneTimeEvents st.
Proof.
  induction l as [|s l IH]; intros st; [done|].
  change (quiet_round arg (s :: l) st)
    with (quiet_round arg l
            match reg_callback s with
            | Quiet c => runCallback c arg st
            | _ => st
            end).
  rewrite IH.
  destruct (reg_callback s) as [c| |]; [|done..].
  unfold runCallback. by rewrite call_oneTimeEvents.
Qed.

Lemma quiet_round_ready arg l : ∀ st,
  _ready st = true → _ready (quiet_round arg l st) = true.
Proof.
  induction l as [|s l IH]; intros st Hr; [done|].
  change (quiet_round arg (s :: l) st)
    with (quiet_round arg l
            match reg_callback s with
            | Quiet c => runCallback c arg st
            | _ => st
            end).
  apply IH.
  destruct (reg_callback s) as [c| |]; [|done..].
  unfold runCallback. by apply call_ready.
Qed.



Lemma filter_stays_twice event (l : list Registration) :
  List.filter (stays event) (List.filter (stays event) l)
  = List.filter (stays event) l.
Proof.
  induction l as [|s l IH]; cbn; [done|].
  destruct (stays event s) eqn:Hs; cbn; [|done]. by rewrite Hs, IH.
Qed.

Lemma quiet_after_filter (f : Registration → bool) event l :
  (∀ s, s ∈ l → reg_event s = event → quiet (reg_callback s)) →
  ∀ s, s ∈ List.filter f l → reg_event s = event → quiet (reg_callback s).
Proof. intros Hq s Hin. apply Hq. by apply elem_of_List_filter in Hin as [? _]. Qed.

(** A thrower after quiet listeners: what [emit] leaves behind. *)
Lemma run_emit_thrower event arg w fuel pre post id once_flag msg rest :
  _oneTimeEvents (emitter w) !! event = None →
  listeners w = pre ++ mkRegistration event (Script id) once_flag :: post →
  (∀ s, s ∈ pre → reg_event s = event → quiet (reg_callback s)) →
  scripts w !! id = Some (Throw msg :: rest) →
  length pre + 6 ≤ fuel →
  run fuel (Emit event arg) w
  = Threw msg
      (mkReentrant
         (List.filter (stays event) pre
          ++ mkRegistration event (Script id) once_flag :: post)
         (record (Called id arg)
            (quiet_round arg (List.filter (hears event) pre) (emitter w)))
         (scripts w)).
Proof.
  intros Hnone Hl Hq Hbody Hfuel. destruct w as [l st b]. cbn in *. subst l.
  replace fuel with (S (length pre + S (S (S (S (S (fuel - length pre - 6)))))))
    by lia.
  rewrite run_emit. cbn [emitter]. rewrite Hnone.
  pose proof (loop_over_quiet event arg b pre []
                (mkRegistration event (Script id) once_flag :: post) st
                (S (S (S (fuel - length pre - 6)))) Hq) as Hloop.
  cbn [app length] in Hloop. rewrite Hloop.
  rewrite run_loop. cbn [listeners].
  rewrite list_lookup_middle by done. cbn [reg_event reg_callback].
  rewrite bool_decide_eq_true_2 by done.
  by rewrite (run_invoke_thrower _ id arg msg rest).
Qed.

(** On a registry of quiet function values the two loops agree: [emit] of
    the first part is [run] on [Emit]. *)
Lemma filter_stays_quiet event (l : list Subscription) :
  List.filter (stays event) (map quiet_registration l)
  = map quiet_registration (List.filter (survives event) l).
Proof.
  induction l as [|s l IH]; cbn; [done|].
  change (stays event (quiet_registration s)) with (survives event s).
  destruct (survives event s); cbn; by rewrite IH.
Qed.

Lemma filter_hears_quiet event (l : list Subscription) :
  List.filter (hears event) (map quiet_registration l)
  = map quiet_registration (List.filter (listens event) l).
Proof.
  induction l as [|s l IH]; cbn; [done|].
  change (hears event (quiet_registration s)) with (listens event s).
  destruct (listens event s); cbn; by rewrite IH.
Qed.

Lemma quiet_round_dispatch arg (l : list Subscription) : ∀ st,
  quiet_round arg (map quiet_registration l) st = dispatch arg l st.
Proof. induction l as [|s l IH]; intros st; cbn; [done|]. apply IH. Qed.

Lemma run_emit_agrees_with_emit event arg st b fuel :
  length (_subscriptions st) + 3 ≤ fuel →
  run fuel (Emit event arg) (reentrant_of st b)
  = match emit event arg st with
    | Returned st' =>
        Finished
          (mkReentrant (map quiet_registration (_subscriptions st'))
             (set_subscriptions (_subscriptions st) st') b)
    | Thrown msg st' => Threw msg (reentrant_of st' b)
    | OutOfFuel => NoFuel
    end.
Proof.
  intros Hfuel.
  destruct (_oneTimeEvents st !! event) as [a|] eqn:Hlook.
  - rewrite (emit_sealed _ _ _ _ Hlook).
    destruct fuel as [|n]; [lia|]. rewrite run_emit. cbn [emitter reentrant_of].
    by rewrite Hlook.
  - rewrite (emit_unsealed _ _ _ Hlook), run_emit_quiet.
    + cbn [reentrant_of listeners emitter scripts _subscriptions
             set_subscriptions].
      rewrite filter_stays_quiet, filter_hears_quiet, quiet_round_dispatch.
      rewrite set_subscriptions_twice.
      by rewrite (set_subscriptions_same _ (_subscriptions st))
        by apply dispatch_subscriptions.
    + done.
    + intros s Hin _. cbn in Hin. apply list_elem_of_fmap in Hin as (s0 & -> & _).
      done.
    + cbn. by rewrite length_map.
Qed.

End Reentrancy.




(** C2: on a sealed event [emit] and [emitOnce] throw the error of the
    emitter before any listener runs, and leave everything as it was.  On
    an event that is not sealed and whose listeners are quiet both return.
    An error of a listener is not caught: if the first listener of an
    unsealed event that is not quiet throws, [emit] and [emitOnce] throw its
    error, after the listeners before it and none after it, and the event is
    not sealed. *)
Theorem emit_throws_when_sealed_or_when_a_listener_throws event arg w fuel :
  (is_Some (_oneTimeEvents (emitter w) !! event) →
   run (S fuel) (Emit event arg) w = Threw (once_error event) w
   ∧ run (S fuel) (EmitOnce event arg) w = Threw (once_error event) w)
  ∧ (_oneTimeEvents (emitter w) !! event = None →
     (∀ s, s ∈ listeners w → reg_event s = event → quiet (reg_callback s)) →
     length (listeners w) + 3 ≤ fuel →
     (∃ w', run fuel (Emit event arg) w = Finished w')
     ∧ (∃ w', run (S fuel) (EmitOnce event arg) w = Finished w'
              ∧ _oneTimeEvents (emitter w') !! event = Some arg))
  ∧ (∀ pre post id once_flag msg rest,
       _oneTimeEvents (emitter w) !! event = None →
       listeners w = pre ++ mkRegistration event (Script id) once_flag :: post →
       (∀ s, s ∈ pre → reg_event s = event → quiet (reg_callback s)) →
       scripts w !! id = Some (Throw msg :: rest) →
       length pre + 6 ≤ fuel →
       ∃ w',
         run fuel (Emit event arg) w = Threw msg w'
         ∧ run (S fuel) (EmitOnce event arg) w = Threw msg w'
         ∧ _oneTimeEvents (emitter w') !! event = None
         ∧ calls (emitter w')
           = calls (emitter w)
             ++ flat_map (quiet_calls arg) (List.filter (hears event) pre)
             ++ [Called id arg]
         ∧ listeners w'
           = List.filter (stays event) pre
             ++ mkRegistration event (Script id) once_flag :: post).
Proof.
  split; [|split].
  - intros [a Ha]. by rewrite run_emit, run_emitOnce, Ha.
  - intros Hnone Hq Hfuel.
    pose proof (run_emit_quiet event arg w fuel Hnone Hq Hfuel) as Hrun.
    split; [by eexists|]. eexists.
    rewrite run_emitOnce, Hnone, Hrun. split; [reflexivity|].
    cbn. apply lookup_insert_eq.
  - intros pre post id once_flag msg rest Hnone Hl Hq Hbody Hfuel.
    pose proof (run_emit_thrower event arg w fuel pre post id once_flag msg
                  rest Hnone Hl Hq Hbody Hfuel) as Hrun.
    eexists. split; [exact Hrun|].
    split; [by rewrite run_emitOnce, Hnone, Hrun|].
    cbn [emitter listeners]. split; [|split; [|done]].
    + cbn. by rewrite quiet_round_oneTimeEvents.
    + unfold calls at 1. cbn [trace record].
      rewrite List.filter_app. cbn [List.filter is_call app].
      fold (calls (quiet_round arg (List.filter (hears event) pre) (emitter w))).
      by rewrite quiet_round_calls, <- app_assoc.
Qed.

Lemma emit_throws_when_sealed_or_when_a_listener_throws_witness :
  (∃ w', run 20 (Emit greet Alice) busy_emitter
         = Finished w')
  ∧ run 21 (Emit boot Alice) sealed_emitter
    = Threw (once_error boot) sealed_emitter.
Proof.
  split.
  - apply (emit_throws_when_sealed_or_when_a_listener_throws greet Alice
             busy_emitter 20).
    + reflexivity.
    + intros s Hin Hev. vm_compute in Hin.
      repeat (apply elem_of_cons in Hin as [->|Hin]; [by vm_compute|]).
      by apply elem_of_nil in Hin.
    + vm_compute. lia.
  - apply (emit_throws_when_sealed_or_when_a_listener_throws boot Alice
             sealed_emitter 20).
    vm_compute. by eexists.
Defined.

(** On an event that is not sealed, a listener that throws makes [emit] and
    [emitOnce] throw. *)
Lemma a_listener_that_throws_makes_emit_throw :
  ∃ w1 w2,
    run 20 (Body [CallOn greet (Quiet logger); CallOn greet thrower]) new_emitter
    = Finished w1
    ∧ _oneTimeEvents (emitter w1) !! greet = None
    ∧ run 20 (Emit greet Alice) w1 = Threw "boom"%string w2
    ∧ run 20 (EmitOnce greet Alice) w1 = Threw "boom"%string w2
    ∧ calls (emitter w2) = [Called 2 Alice; Called 6 Alice]
    ∧ _oneTimeEvents (emitter w2) !! greet = None.
Proof.
  eexists. eexists. split; [vm_compute; reflexivity|].
  split; [reflexivity|]. split; [vm_compute; reflexivity|].
  split; [vm_compute; reflexivity|]. split; reflexivity.
Qed.

(** ** on *)

(** C3: on a sealed event [on] runs the callback at once on the stored
    arguments and adds no subscription; on any other event it appends one
    subscription with [once = false] at the end of the registry, and does
    nothing else. *)
Theorem on_replays_or_appends event callback st :
  (∀ arg, _oneTimeEvents st !! event = Some arg →
     snd (on event callback st) = runCallback callback arg st
     ∧ calls (snd (on event callback st)) = calls st ++ calls_of callback arg
     ∧ _subscriptions (snd (on event callback st)) = _subscriptions st)
  ∧ (_oneTimeEvents st !! event = None →
     snd (on event callback st)
     = set_subscriptions
         (_subscriptions st ++ [mkSubscription event callback false]) st
     ∧ calls (snd (on event callback st)) = calls st
     ∧ _subscriptions (snd (on event callback st))
       = _subscriptions st ++ [mkSubscription event callback false]).
Proof.
  split.
  - intros arg Hsome. unfold on. cbn. rewrite Hsome. unfold runCallback.
    split; [done|]. split; [apply call_calls|apply call_subscriptions].
  - intros Hnone. unfold on. cbn. by rewrite Hnone.
Qed.

(** Scenario of the specification: after emitOnce("boot", 42), on("boot", l2)
    calls l2 at once with 42 and registers nothing, and emit("boot", 7)
    throws. *)
Example boot_scenario :
  let st := snd (on boot logger sealed_state) in
  trace st = [Called 2 [VNum 42]]
  ∧ _subscriptions st = _subscriptions sealed_state
  ∧ emit boot [VNum 7] st = Thrown (once_error boot) st.
Proof. vm_compute. done. Qed.

(** ** emitOnce *)

Lemma filter_survives_twice event (l : list Subscription) :
  List.filter (offOnce_keeps event None) (List.filter (survives event) l)
  = List.filter (survives event) l.
Proof.
  induction l as [|s l IH]; cbn; [done|].
  destruct (survives event s) eqn:Hs; [|done]. cbn. rewrite IH.
  unfold survives, listens in Hs. unfold offOnce_keeps, off_keeps.
  by destruct (bool_decide (sub_event s = event)), (sub_once s).
Qed.

(** What [emitOnce] does on an unsealed event: the dispatch of [emit], the
    record, and [offOnce(event)], which finds no one-time subscription of
    the event left and keeps the others. *)
Lemma emitOnce_unsealed event arg st :
  _oneTimeEvents st !! event = None →
  emitOnce event arg st
  = Returned
      (set_oneTimeEvents (<[event := arg]> (_oneTimeEvents st))
         (set_subscriptions
            (List.filter (survives event) (_subscriptions st))
            (dispatch arg (List.filter (listens event) (_subscriptions st)) st))).
Proof.
  intros Hnone. unfold emitOnce. rewrite Hnone, (emit_unsealed _ _ _ Hnone).
  unfold offOnce. cbn. rewrite filter_survives_twice.
  by rewrite dispatch_oneTimeEvents.
Qed.

Lemma emitOnce_sealed event arg st a :
  _oneTimeEvents st !! event = Some a →
  emitOnce event arg st = Thrown (once_error event) st.
Proof. intros Hsome. unfold emitOnce. by rewrite Hsome. Qed.

(** C4, the code at on("boot", logger); emitOnce("boot", 42): the listener
    is called, the record is stored, and the subscription of [logger], which
    is not one-time, is still in the registry, since [emitOnce] ends with
    [offOnce(event)]. *)
Theorem emitOnce_keeps_plain_listeners :
  ∃ st',
    emitOnce boot [VNum 42] (snd (on boot logger constructor)) = Returned st'
    ∧ trace st' = [Called 2 [VNum 42]]
    ∧ _oneTimeEvents st' !! boot = Some [VNum 42]
    ∧ mkSubscription boot logger false ∈ _subscriptions st'.
Proof.
  eexists. split; [vm_compute; reflexivity|].
  split; [reflexivity|]. split; [reflexivity|].
  cbn. apply list_elem_of_In. cbn. auto.
Qed.

(** In general the subscriptions of the event that are not one-time stay. *)
Lemma plain_listeners_outlive_emitOnce event arg st s :
  _oneTimeEvents st !! event = None →
  s ∈ _subscriptions st → sub_once s = false →
  ∃ st', emitOnce event arg st = Returned st' ∧ s ∈ _subscriptions st'.
Proof.
  intros Hnone Hin Ho. eexists. split; [by apply emitOnce_unsealed|].
  cbn. apply list_elem_of_In, List.filter_In. split; [by apply list_elem_of_In|].
  unfold survives. rewrite Ho. by rewrite andb_false_r.
Qed.

(** ** once *)

(** C5, the code at once("greet", greeter); emit("greet", "Alice"), where
    [greeter] returns 7: [ourCallback] settles the promise first, with
    undefined, and calls [greeter] after that; the value [greeter] returns
    is dropped. *)
Theorem once_resolves_first_with_undefined :
  call greeter Alice (snd once_greet)
  = (VNum 7, record (Called 1 Alice) (snd once_greet))
  ∧ ∃ st',
      emit greet Alice (snd once_greet) = Returned st'
      ∧ promises st' !! fst once_greet = Some (Fulfilled VUndefined)
      ∧ trace st' = [Settled (fst once_greet) VUndefined; Called 1 Alice].
Proof.
  split; [reflexivity|].
  eexists. split; [vm_compute; reflexivity|]. split; reflexivity.
Qed.

(** Whatever the callback, its result and the state: the promise of
    [once] holds undefined after the event is emitted. *)
Lemma once_promise_holds_undefined event callback arg st :
  _oneTimeEvents st !! event = None →
  ∃ st',
    emit event arg (snd (once event callback st)) = Returned st'
    ∧ promises st' !! fst (once event callback st) = Some (Fulfilled VUndefined).
Proof.
  intros Hnone. unfold once. cbn. rewrite Hnone. cbn [fst snd].
  eexists. split; [by apply emit_unsealed|].
  cbn [promises set_subscriptions _subscriptions].
  rewrite List.filter_app. cbn [List.filter]. rewrite listens_own.
  rewrite dispatch_app. cbn [dispatch foldl sub_callback].
  apply runCallback_once_fulfils, dispatch_unsettled. cbn.
  left. eexists. by apply list_lookup_middle.
Qed.

(** The same on a sealed event: the promise of once("boot", greeter) is
    settled with undefined before [greeter] is called with 42. *)
Example once_replay_resolves_first_with_undefined :
  let '(p, st') := once boot (Some greeter) sealed_state in
  promises st' !! p = Some (Fulfilled VUndefined)
  ∧ trace st' = [Settled p VUndefined; Called 1 [VNum 42]].
Proof. vm_compute. done. Qed.

(** C6: on an event sealed with [a], [emitOnce] with [b] throws in the state
    it was called in: the record is still [a] and the registry is as it
    was. *)
Theorem emitOnce_again_throws_and_keeps_state event a b st :
  _oneTimeEvents st !! event = Some a →
  ∃ msg st',
    emitOnce event b st = Thrown msg st'
    ∧ st' = st
    ∧ _oneTimeEvents st' !! event = Some a
    ∧ _subscriptions st' = _subscriptions st.
Proof.
  intros Hsome. exists (once_error event), st.
  split; [by eapply emitOnce_sealed|done].
Qed.

Lemma emitOnce_again_throws_and_keeps_state_witness :
  _oneTimeEvents sealed_state !! boot = Some [VNum 42]
  ∧ ∃ msg st',
      emitOnce boot [VNum 7] sealed_state = Thrown msg st'
      ∧ st' = sealed_state
      ∧ _oneTimeEvents st' !! boot = Some [VNum 42]
      ∧ _subscriptions st' = _subscriptions sealed_state.
Proof.
  split; [reflexivity|].
  apply (emitOnce_again_throws_and_keeps_state boot [VNum 42] [VNum 7]).
  reflexivity.
Defined.

(** The record [emitOnce] stores is the one a second call finds. *)
Lemma emitOnce_then_emitOnce event a b st st1 :
  emitOnce event a st = Returned st1 →
  _oneTimeEvents st1 !! event = Some a
  ∧ emitOnce event b st1 = Thrown (once_error event) st1.
Proof.
  intros Hfirst.
  destruct (_oneTimeEvents st !! event) as [a0|] eqn:Hlook.
  - by rewrite (emitOnce_sealed _ _ _ _ Hlook) in Hfirst.
  - rewrite (emitOnce_unsealed _ _ _ Hlook) in Hfirst.
    injection Hfirst as <-.
    assert (∀ m l st0, _oneTimeEvents (set_oneTimeEvents m
              (set_subscriptions l st0)) = m) as Hm by done.
    split; [by rewrite Hm, lookup_insert_eq|].
    eapply emitOnce_sealed. by rewrite Hm, lookup_insert_eq.
Qed.

(** ** clearEvents *)

(** C7: [clearEvents] empties the registry and the sealed events and keeps
    the flag, whatever the state; after it [emitOnce] on any event, also one
    that was sealed before, returns and stores the new arguments. *)
Theorem clearEvents_empties_and_unseals event b st :
  _subscriptions (clearEvents st) = []
  ∧ _oneTimeEvents (clearEvents st) = ∅
  ∧ prepared (clearEvents st) = prepared st
  ∧ ∃ st',
      emitOnce event b (clearEvents st) = Returned st'
      ∧ _oneTimeEvents st' !! event = Some b.
Proof.
  split; [done|]. split; [done|]. split; [done|].
  eexists. split.
  - apply emitOnce_unsealed. cbn. apply lookup_empty.
  - cbn. apply lookup_insert_eq.
Qed.

(** emitOnce("boot", 42); clearEvents(); emitOnce("boot", 7). *)
Example clearEvents_after_seal :
  _oneTimeEvents sealed_state !! boot = Some [VNum 42]
  ∧ ∃ st', emitOnce boot [VNum 7] (clearEvents sealed_state) = Returned st'
           ∧ _oneTimeEvents st' !! boot = Some [VNum 7].
Proof.
  split; [reflexivity|].
  eexists. split; [by apply emitOnce_unsealed|reflexivity].
Qed.

(** ** The prepared property *)

Lemma dispatch_sets_ready arg l once_flag : ∀ st,
  mkSubscription internal_ready InternalReady once_flag ∈ l →
  _ready (dispatch arg l st) = true.
Proof.
  intros st Hin. apply list_elem_of_split in Hin as (l1 & l2 & ->).
  rewrite dispatch_app. cbn. by apply dispatch_ready.
Qed.

(** With the constructor's listener in the registry and [internal_ready]
    not sealed, the assignment sets the flag. *)
Lemma set_prepared_with_listener value once_flag st :
  _oneTimeEvents st !! internal_ready = None →
  mkSubscription internal_ready InternalReady once_flag ∈ _subscriptions st →
  ∃ st', set_prepared value st = Returned st' ∧ prepared st' = true.
Proof.
  intros Hnone Hin. eexists. split; [by apply emit_unsealed|].
  cbn. unfold prepared. cbn. eapply dispatch_sets_ready.
  apply list_elem_of_In, List.filter_In. split; [by apply list_elem_of_In|].
  apply bool_decide_eq_true_2. reflexivity.
Qed.

(** The flag, once set, stays set through any assignment. *)
Lemma set_prepared_keeps_flag value st :
  prepared st = true →
  match set_prepared value st with
  | Returned st' | Thrown _ st' => prepared st' = true
  | OutOfFuel => False
  end.
Proof.
  intros Hp. unfold set_prepared.
  destruct (_oneTimeEvents st !! internal_ready) as [a|] eqn:Hlook.
  - by rewrite (emit_sealed _ _ _ _ Hlook).
  - rewrite (emit_unsealed _ _ _ Hlook). unfold prepared. cbn.
    by apply dispatch_ready.
Qed.

(** After [clearEvents] no assignment to [prepared] sets the flag. *)
Lemma clearEvents_disables_set_prepared value st :
  prepared st = false →
  ∃ st',
    set_prepared value (clearEvents st) = Returned st'
    ∧ prepared st' = false.
Proof.
  intros Hp. eexists. split; [by apply emit_unsealed|]. exact Hp.
Qed.

(** C8, the code at clearEvents(); prepared = true on a new emitter: the
    assignment emits [internal_ready], which has no listener left to set the
    flag, and [prepared] still reads false. *)
Theorem set_prepared_after_clearEvents :
  set_prepared true (clearEvents constructor)
  = emit internal_ready [] (clearEvents constructor)
  ∧ ∃ st',
      set_prepared true (clearEvents constructor) = Returned st'
      ∧ prepared st' = false.
Proof. split; [reflexivity|]. eexists. split; reflexivity. Qed.

(** C10: the setter does not look at the value assigned: false does what
    true does, which is to emit [internal_ready] with no arguments; on a new
    emitter, and on any emitter that still has the constructor's listener
    and has not sealed [internal_ready], [prepared] reads true afterwards;
    and no assignment brings a set flag back to false. *)
Theorem set_prepared_ignores_value st :
  set_prepared false st = set_prepared true st
  ∧ set_prepared false st = emit internal_ready [] st
  ∧ (∃ st', set_prepared false constructor = Returned st' ∧ prepared st' = true)
  ∧ (∀ once_flag,
       _oneTimeEvents st !! internal_ready = None →
       mkSubscription internal_ready InternalReady once_flag ∈ _subscriptions st →
       ∃ st', set_prepared false st = Returned st' ∧ prepared st' = true)
  ∧ (∀ value,
       prepared st = true →
       match set_prepared value st with
       | Returned st' | Thrown _ st' => prepared st' = true
       | OutOfFuel => False
       end).
Proof.
  split; [done|]. split; [done|]. split; [|split].
  - eexists. split; reflexivity.
  - intros once_flag. apply set_prepared_with_listener.
  - intros value. apply set_prepared_keeps_flag.
Qed.

(** ** ready *)

Section Ready.

Variables (id : nat) (ret : list Value → Value).
















End Ready.


(** ** ready next to listeners of any kind *)

Section ReadyAmongListeners.

Variable id : nat.
Variable ret : list Value → Value.





End ReadyAmongListeners.


(** ready(greeter) on a prepared emitter: [greeter] is called at once and
    the promise takes 7 at the third microtask. *)
Example ready_when_prepared :
  let '(p, st1) := ready (Some greeter) prepared_state in
  trace st1 = [Called 1 []]
  ∧ promises (run_microtasks 2 st1) !! p = Some (Pending [])
  ∧ promises (run_microtasks 3 st1) !! p = Some (Fulfilled (VNum 7)).
Proof. vm_compute. repeat split. Qed.

(** ready(greeter) on a new emitter, then prepared = true: the call
    happens inside the assignment, and the promise takes 7 at the third
    microtask after it. *)
Example ready_before_prepared :
  let '(p, st1) := ready (Some greeter) constructor in
  trace st1 = []
  ∧ ∃ st2,
      set_prepared true st1 = Returned st2
      ∧ prepared st2 = true
      ∧ trace st2 = [Settled 2 VUndefined; Called 1 []]
      ∧ promises (run_microtasks 2 st2) !! p = Some (Pending [])
      ∧ promises (run_microtasks 3 st2) !! p = Some (Fulfilled (VNum 7)).
Proof.
  cbn. split; [done|]. eexists. split; [vm_compute; reflexivity|].
  repeat split.
Qed.

(** ready(fetcher) on a prepared emitter, where [fetcher] returns the
    pending promise 0: [fetcher] is called inside [ready], nothing is queued
    until promise 0 is resolved, and the promise of [ready] takes its value
    at the third microtask after that. *)
Example ready_awaits_the_promise_of_the_callback :
  let '(p, st1) := ready (Some fetcher) fetching_state in
  trace st1 = [Called 3 []]
  ∧ microtasks st1 = []
  ∧ promises st1 !! p = Some (Pending [])
  ∧ microtasks (resolve 0 (VStr "done") st1)
    = [React (ReturnResolved p) (VStr "done")]
  ∧ promises (run_microtasks 2 (resolve 0 (VStr "done") st1)) !! p
    = Some (Pending [])
  ∧ promises (run_microtasks 3 (resolve 0 (VStr "done") st1)) !! p
    = Some (Fulfilled (VStr "done")).
Proof. vm_compute. repeat split. Qed.

(** * More of the class *)

(** ** emit on an event nobody listens to *)

Lemma emit_unheard event arg st :
  _oneTimeEvents st !! event = None →
  (∀ s, s ∈ _subscriptions st → sub_event s ≠ event) →
  emit event arg st = Returned st.
Proof.
  intros Hnone Hno. rewrite (emit_unsealed _ _ _ Hnone).
  rewrite (filter_keeps_none (listens event)), (filter_keeps_all (survives event)).
  - cbn. by rewrite set_subscriptions_same.
  - intros s Hs. unfold survives. by rewrite (listens_false _ _ (Hno s Hs)).
  - intros s Hs. by apply listens_false, Hno.
Qed.

(** X1: [emit] on an unsealed event that no subscription is registered for
    returns the state it was called in: nothing is called and nothing is
    removed. *)
Theorem emit_without_listener_changes_nothing event arg st :
  _oneTimeEvents st !! event = None →
  (∀ s, s ∈ _subscriptions st → sub_event s ≠ event) →
  emit event arg st = Returned st.
Proof. apply emit_unheard. Qed.

Lemma emit_without_listener_changes_nothing_witness :
  _oneTimeEvents constructor !! greet = None
  ∧ (∀ s, s ∈ _subscriptions constructor → sub_event s ≠ greet)
  ∧ emit greet Alice constructor = Returned constructor.
Proof.
  assert (∀ s, s ∈ _subscriptions constructor → sub_event s ≠ greet) as Hno.
  { intros s Hs. apply list_elem_of_In in Hs. cbn in Hs.
    destruct Hs as [<-|[]]. discriminate. }
  split; [reflexivity|]. split; [exact Hno|].
  apply (emit_without_listener_changes_nothing greet Alice constructor);
    [reflexivity|exact Hno].
Defined.

(** ** off and the handles of on *)

Lemma off_all_keeps event s : off_keeps event None s = negb (listens event s).
Proof. unfold off_keeps, listens. by rewrite orb_false_r. Qed.

Lemma off_all_subscriptions event st :
  _subscriptions (off event None st)
  = List.filter (λ s, negb (listens event s)) (_subscriptions st).
Proof. cbn. apply List.filter_ext. intros s. apply off_all_keeps. Qed.

(** X2: off(event), with no callback, takes every subscription of the
    event out of the registry, the one-time ones too, and keeps the others
    in their order; an [emit] of the event after it calls nothing and leaves
    the state as it is. *)
Theorem off_silences_event event arg st :
  _oneTimeEvents st !! event = None →
  _subscriptions (off event None st)
  = List.filter (λ s, negb (listens event s)) (_subscriptions st)
  ∧ emit event arg (off event None st) = Returned (off event None st).
Proof.
  intros Hnone. split; [apply off_all_subscriptions|].
  apply emit_unheard; [done|].
  intros s Hs. rewrite off_all_subscriptions in Hs.
  apply elem_of_List_filter in Hs as [_ Hs]. intros He.
  unfold listens in Hs. by rewrite bool_decide_eq_true_2 in Hs.
Qed.

Lemma off_silences_event_witness :
  _oneTimeEvents busy_state !! greet = None
  ∧ _subscriptions (off greet None busy_state)
    = List.filter (λ s, negb (listens greet s)) (_subscriptions busy_state)
  ∧ emit greet Alice (off greet None busy_state)
    = Returned (off greet None busy_state).
Proof.
  split; [reflexivity|].
  apply (off_silences_event greet Alice busy_state). reflexivity.
Defined.

(** X3: a handle's stop() takes out every subscription of its event whose
    callback is the one the handle was made for, those of earlier calls of
    on included, and keeps all others; remove() does the same. *)
Theorem stop_removes_every_registration event callback st :
  let h := fst (on event callback st) in
  let st1 := snd (on event callback st) in
  _subscriptions (stop h st1)
  = List.filter (off_keeps event (Some callback)) (_subscriptions st)
  ∧ (∀ s, s ∈ _subscriptions (stop h st1) →
          sub_event s = event → same_callback (sub_callback s) callback = false)
  ∧ (∀ s, s ∈ _subscriptions st →
          sub_event s ≠ event ∨ same_callback (sub_callback s) callback = false →
          s ∈ _subscriptions (stop h st1))
  ∧ remove h st1 = stop h st1.
Proof.
  intros h st1.
  assert (_subscriptions (stop h st1)
          = List.filter (off_keeps event (Some callback)) (_subscriptions st))
    as Hsubs.
  { unfold h, st1, on. cbn.
    destruct (_oneTimeEvents st !! event) as [a|]; cbn.
    - unfold runCallback. by rewrite call_subscriptions.
    - rewrite List.filter_app. cbn. unfold off_keeps at 2. cbn.
      rewrite bool_decide_eq_true_2 by done.
      rewrite same_callback_refl. cbn. by rewrite app_nil_r. }
  split; [done|]. rewrite Hsubs. split; [|split; [|done]].
  - intros s Hs He. apply elem_of_List_filter in Hs as [_ Hs].
    unfold off_keeps in Hs. rewrite bool_decide_eq_true_2 in Hs by done.
    cbn in Hs. by apply negb_true_iff.
  - intros s Hs Hkeep. apply elem_of_List_filter. split; [done|].
    unfold off_keeps. destruct Hkeep as [Hne|Hdiff].
    + by rewrite bool_decide_eq_false_2.
    + rewrite Hdiff. cbn. apply orb_true_r.
Qed.

(** X4: on an unsealed event, when the callback is not yet registered for
    it, on and then stop() (or remove()) of the handle give back the state
    on was called in. *)
Theorem stop_undoes_on event callback st :
  _oneTimeEvents st !! event = None →
  (∀ s, s ∈ _subscriptions st → sub_event s = event →
        same_callback (sub_callback s) callback = false) →
  stop (fst (on event callback st)) (snd (on event callback st)) = st
  ∧ remove (fst (on event callback st)) (snd (on event callback st)) = st.
Proof.
  intros Hnone Hfresh.
  assert (stop (fst (on event callback st)) (snd (on event callback st)) = st)
    as Hstop; [|by split].
  unfold stop, off, on. cbn. rewrite Hnone. cbn.
  rewrite List.filter_app. cbn. unfold off_keeps at 2. cbn.
  rewrite bool_decide_eq_true_2 by done.
  rewrite same_callback_refl. cbn. rewrite app_nil_r.
  rewrite filter_keeps_all; [by destruct st|].
  intros s Hs. unfold off_keeps.
  destruct (bool_decide (sub_event s = event)) eqn:He; [|done].
  apply bool_decide_eq_true_1 in He. by rewrite (Hfresh s Hs He).
Qed.

Lemma stop_undoes_on_witness :
  _oneTimeEvents busy_state !! boot = None
  ∧ (∀ s, s ∈ _subscriptions busy_state → sub_event s = boot →
          same_callback (sub_callback s) greeter = false)
  ∧ stop (fst (on boot greeter busy_state)) (snd (on boot greeter busy_state))
    = busy_state
  ∧ remove (fst (on boot greeter busy_state)) (snd (on boot greeter busy_state))
    = busy_state.
Proof.
  assert (∀ s, s ∈ _subscriptions busy_state → sub_event s = boot →
               same_callback (sub_callback s) greeter = false) as Hfresh.
  { intros s Hs. apply list_elem_of_In in Hs. cbn in Hs.
    repeat (destruct Hs as [<-|Hs]; [by intros|]). destruct Hs. }
  split; [reflexivity|]. split; [exact Hfresh|].
  apply (stop_undoes_on boot greeter busy_state); [reflexivity|exact Hfresh].
Defined.

(** ** once, and what can cancel it *)

Lemma once_unsealed event callback st :
  _oneTimeEvents st !! event = None →
  once event callback st
  = (length (promises st),
     set_subscriptions
       (_subscriptions st
        ++ [mkSubscription event (OnceCallback (length (promises st)) callback)
              true])
       (set_promises (promises st ++ [Pending []]) st)).
Proof. intros Hnone. unfold once. cbn. by rewrite Hnone. Qed.

(** X5: the registry holds [ourCallback], not the function given to
    [once].  So off(event, listener) and offOnce(event, listener) with that
    function leave the subscription of once(event, listener) in place, and
    the next [emit] still calls the listener; off(event) and offOnce(event)
    with no callback do remove it. *)
Theorem once_is_not_cancelled_by_its_listener event id ret arg st :
  _oneTimeEvents st !! event = None →
  let listener := Listener id ret in
  let p := fst (once event (Some listener) st) in
  let st1 := snd (once event (Some listener) st) in
  let s := mkSubscription event (OnceCallback p (Some listener)) true in
  s ∈ _subscriptions (offOnce event (Some listener) st1)
  ∧ s ∈ _subscriptions (off event (Some listener) st1)
  ∧ (∃ st2, emit event arg (offOnce event (Some listener) st1) = Returned st2
            ∧ Called id arg ∈ calls st2)
  ∧ (s ∉ _subscriptions (offOnce event None st1))
  ∧ (s ∉ _subscriptions (off event None st1)).
Proof.
  intros Hnone listener p st1 s.
  assert (s ∈ _subscriptions st1) as Hin.
  { unfold st1, s, p. rewrite (once_unsealed _ _ _ Hnone). cbn.
    apply elem_of_app. right. apply list_elem_of_here. }
  assert (off_keeps event (Some listener) s = true) as Hkeep.
  { unfold off_keeps, s. cbn. apply orb_true_r. }
  assert (s ∈ _subscriptions (offOnce event (Some listener) st1)) as Hin1.
  { cbn. apply elem_of_List_filter. split; [done|].
    unfold offOnce_keeps. by rewrite Hkeep. }
  split; [done|]. split; [|split; [|split]].
  - cbn. apply elem_of_List_filter. by split.
  - assert (_oneTimeEvents (offOnce event (Some listener) st1) !! event = None)
      as Hnone1.
    { unfold st1. by rewrite (once_unsealed _ _ _ Hnone). }
    eexists. split; [by apply emit_unsealed|].
    rewrite emit_calls. apply elem_of_app. right.
    apply list_elem_of_In, List.in_flat_map. exists s. split.
    + apply list_elem_of_In, elem_of_List_filter. split; [done|].
      apply listens_own.
    + cbn. by left.
  - cbn. intros Hs. apply elem_of_List_filter in Hs as [_ Hs].
    unfold offOnce_keeps, off_keeps, s in Hs. cbn in Hs.
    by rewrite bool_decide_eq_true_2 in Hs.
  - rewrite off_all_subscriptions. intros Hs.
    apply elem_of_List_filter in Hs as [_ Hs]. unfold s in Hs.
    by rewrite listens_own in Hs.
Qed.

Lemma once_is_not_cancelled_by_its_listener_witness :
  _oneTimeEvents constructor !! greet = None
  ∧ let p := fst (once greet (Some greeter) constructor) in
    let st1 := snd (once greet (Some greeter) constructor) in
    let s := mkSubscription greet (OnceCallback p (Some greeter)) true in
    s ∈ _subscriptions (offOnce greet (Some greeter) st1)
    ∧ s ∈ _subscriptions (off greet (Some greeter) st1)
    ∧ (∃ st2, emit greet Alice (offOnce greet (Some greeter) st1) = Returned st2
              ∧ Called 1 Alice ∈ calls st2)
    ∧ (s ∉ _subscriptions (offOnce greet None st1))
    ∧ (s ∉ _subscriptions (off greet None st1)).
Proof.
  split; [reflexivity|].
  apply (once_is_not_cancelled_by_its_listener greet 1 (λ _, VNum 7) Alice
           constructor).
  reflexivity.
Defined.

Lemma filter_survives_survivors event (l : list Subscription) :
  List.filter (survives event) (List.filter (survives event) l)
  = List.filter (survives event) l.
Proof.
  induction l as [|s l IH]; cbn; [done|].
  destruct (survives event s) eqn:Hs; cbn; rewrite ?Hs, IH; done.
Qed.

(** X8: once on a sealed event runs [ourCallback] on the stored arguments
    before it returns: the callback, when there is one, is called with
    them, the promise holds undefined, and neither the registry nor the
    sealed events change. *)
Theorem once_on_sealed_event_replays event callback a st :
  _oneTimeEvents st !! event = Some a →
  let p := fst (once event callback st) in
  let st1 := snd (once event callback st) in
  _subscriptions st1 = _subscriptions st
  ∧ _oneTimeEvents st1 = _oneTimeEvents st
  ∧ promises st1 !! p = Some (Fulfilled VUndefined)
  ∧ calls st1
    = calls st ++ match callback with Some cb => calls_of cb a | None => [] end.
Proof.
  intros Hsome p st1. unfold p, st1, once. cbn. rewrite Hsome. cbn [fst snd].
  split; [|split; [|split]].
  - unfold runCallback. by rewrite call_subscriptions.
  - unfold runCallback. by rewrite call_oneTimeEvents.
  - apply runCallback_once_fulfils. left. eexists. cbn.
    by apply list_lookup_middle.
  - unfold runCallback. rewrite call_calls. by destruct callback.
Qed.

Lemma once_on_sealed_event_replays_witness :
  _oneTimeEvents sealed_state !! boot = Some [VNum 42]
  ∧ let p := fst (once boot (Some greeter) sealed_state) in
    let st1 := snd (once boot (Some greeter) sealed_state) in
    _subscriptions st1 = _subscriptions sealed_state
    ∧ _oneTimeEvents st1 = _oneTimeEvents sealed_state
    ∧ promises st1 !! p = Some (Fulfilled VUndefined)
    ∧ calls st1 = calls sealed_state ++ calls_of greeter [VNum 42].
Proof.
  split; [reflexivity|].
  apply (once_on_sealed_event_replays boot (Some greeter) [VNum 42] sealed_state).
  reflexivity.
Defined.

(** ** emitOnce *)

Lemma emitOnce_returned event a st st1 :
  emitOnce event a st = Returned st1 →
  _oneTimeEvents st !! event = None
  ∧ _oneTimeEvents st1 = <[event := a]> (_oneTimeEvents st).
Proof.
  intros Hret.
  destruct (_oneTimeEvents st !! event) as [a0|] eqn:Hlook.
  - by rewrite (emitOnce_sealed _ _ _ _ Hlook) in Hret.
  - rewrite (emitOnce_unsealed _ _ _ Hlook) in Hret. by injection Hret as <-.
Qed.

(** X10: after [emitOnce] has returned, the event is sealed with its
    arguments and no other event is: [on] and [once] for it call the
    callback at once with these arguments and register nothing, and [emit]
    for it throws. *)
Theorem emitOnce_replays_to_late_subscribers event a st st1 :
  emitOnce event a st = Returned st1 →
  (∀ other, other ≠ event →
     _oneTimeEvents st1 !! other = _oneTimeEvents st !! other)
  ∧ (∀ cb, calls (snd (on event cb st1)) = calls st1 ++ calls_of cb a
           ∧ _subscriptions (snd (on event cb st1)) = _subscriptions st1)
  ∧ (∀ cb, calls (snd (once event (Some cb) st1)) = calls st1 ++ calls_of cb a
           ∧ _subscriptions (snd (once event (Some cb) st1))
             = _subscriptions st1)
  ∧ (∀ b, emit event b st1 = Thrown (once_error event) st1).
Proof.
  intros Hret. apply emitOnce_returned in Hret as [Hnone Hmap].
  assert (_oneTimeEvents st1 !! event = Some a) as Hsome
    by (rewrite Hmap; apply lookup_insert_eq).
  split; [|split; [|split]].
  - intros other Hne. rewrite Hmap. by apply lookup_insert_ne.
  - intros cb. unfold on. cbn. rewrite Hsome. unfold runCallback.
    by rewrite call_calls, call_subscriptions.
  - intros cb. unfold once. cbn. rewrite Hsome. cbn [snd]. unfold runCallback.
    split; [rewrite call_calls, resolve_calls
           |rewrite call_subscriptions, resolve_subscriptions]; reflexivity.
  - intros b. by eapply emit_sealed.
Qed.

Lemma emitOnce_replays_to_late_subscribers_witness :
  emitOnce boot [VNum 42] constructor = Returned sealed_state
  ∧ (∀ other, other ≠ boot →
       _oneTimeEvents sealed_state !! other = _oneTimeEvents constructor !! other)
  ∧ (∀ cb, calls (snd (on boot cb sealed_state))
           = calls sealed_state ++ calls_of cb [VNum 42]
           ∧ _subscriptions (snd (on boot cb sealed_state))
             = _subscriptions sealed_state)
  ∧ (∀ cb, calls (snd (once boot (Some cb) sealed_state))
           = calls sealed_state ++ calls_of cb [VNum 42]
           ∧ _subscriptions (snd (once boot (Some cb) sealed_state))
             = _subscriptions sealed_state)
  ∧ (∀ b, emit boot b sealed_state = Thrown (once_error boot) sealed_state).
Proof.
  split; [reflexivity|].
  apply (emitOnce_replays_to_late_subscribers boot [VNum 42] constructor
           sealed_state).
  reflexivity.
Defined.

(** ** Cancelling once *)

(** X11: the promise of once has no other way to settle than the call of
    [ourCallback].  After off(event), or after clearEvents(), the
    subscription is gone, an [emit] of the event calls nothing, and the
    promise is pending as before. *)
Theorem off_leaves_the_promise_of_once_pending event callback arg st :
  _oneTimeEvents st !! event = None →
  let p := fst (once event callback st) in
  let st1 := snd (once event callback st) in
  promises (off event None st1) !! p = Some (Pending [])
  ∧ emit event arg (off event None st1) = Returned (off event None st1)
  ∧ promises (clearEvents st1) !! p = Some (Pending [])
  ∧ emit event arg (clearEvents st1) = Returned (clearEvents st1).
Proof.
  intros Hnone p st1.
  assert (promises st1 !! p = Some (Pending [])) as Hp.
  { unfold st1, p. rewrite (once_unsealed _ _ _ Hnone). cbn.
    by apply list_lookup_middle. }
  assert (_oneTimeEvents st1 !! event = None) as Hnone1
    by (unfold st1; by rewrite (once_unsealed _ _ _ Hnone)).
  split; [done|]. split; [|split; [done|]].
  - apply emit_unheard; [done|].
    intros s Hs. rewrite off_all_subscriptions in Hs.
    apply elem_of_List_filter in Hs as [_ Hs]. intros He.
    unfold listens in Hs. by rewrite bool_decide_eq_true_2 in Hs.
  - apply emit_unheard; [apply lookup_empty|].
    intros s Hs. cbn in Hs. by apply not_elem_of_nil in Hs.
Qed.

Lemma off_leaves_the_promise_of_once_pending_witness :
  _oneTimeEvents busy_state !! greet = None
  ∧ let p := fst (once greet (Some greeter) busy_state) in
    let st1 := snd (once greet (Some greeter) busy_state) in
    promises (off greet None st1) !! p = Some (Pending [])
    ∧ emit greet Alice (off greet None st1) = Returned (off greet None st1)
    ∧ promises (clearEvents st1) !! p = Some (Pending [])
    ∧ emit greet Alice (clearEvents st1) = Returned (clearEvents st1).
Proof.
  split; [reflexivity|].
  apply (off_leaves_the_promise_of_once_pending greet (Some greeter) Alice
           busy_state).
  reflexivity.
Defined.

(** ** ready without a callback *)


(** * pipe and pipeOnce *)

(** ** The loop with arrows in the registry *)

Section Piping.

Lemma pipe_emit_loop_round event arg rest : ∀ fuel pre w,
  piped w = pre ++ rest →
  length rest ≤ fuel →
  pipe_emit_loop fuel event arg (length pre) w
  = pipe_round event arg pre rest (this w) (eventEmitter w) (arrows w).
Proof.
  induction rest as [|s rest IH]; intros fuel pre w Hsubs Hfuel.
  - rewrite app_nil_r in Hsubs.
    assert (piped w !! length pre = None) as Hnone
      by (rewrite Hsubs; by apply lookup_ge_None_2).
    destruct fuel; cbn; rewrite Hnone; destruct w; cbn in *; by subst.
  - assert (piped w !! length pre = Some s) as Hsome
      by (rewrite Hsubs; apply list_lookup_middle; done).
    destruct fuel as [|fuel]; [cbn in Hfuel; lia|].
    cbn [pipe_emit_loop pipe_round]. rewrite Hsome.
    destruct (bool_decide (pipe_event s = event)).
    + destruct (pipe_call (pipe_callback s) arg (this w) (eventEmitter w))
        as [st tg|msg st tg|]; [|by rewrite <- Hsubs|done].
      destruct (pipe_once s).
      * cbn [piped set_emitters]. rewrite Hsubs, delete_middle.
        rewrite (IH fuel pre); [done|done|cbn in Hfuel; lia].
      * replace (S (length pre)) with (length (pre ++ [s]))
          by (rewrite length_app; cbn; lia).
        rewrite (IH fuel (pre ++ [s]));
          [done|cbn; by rewrite Hsubs, <- app_assoc|cbn in Hfuel; lia].
    + replace (S (length pre)) with (length (pre ++ [s]))
        by (rewrite length_app; cbn; lia).
      rewrite (IH fuel (pre ++ [s]));
        [done|by rewrite Hsubs, <- app_assoc|cbn in Hfuel; lia].
Qed.

Lemma pipe_emit_unsealed event arg w :
  _oneTimeEvents (this w) !! event = None →
  pipe_emit event arg w
  = pipe_round event arg [] (piped w) (this w) (eventEmitter w) (arrows w).
Proof.
  intros Hnone. unfold pipe_emit. rewrite Hnone.
  apply (pipe_emit_loop_round event arg (piped w) _ [] w); done.
Qed.

(** Past the listeners of above the round is the dispatch of [emit]. *)
Lemma pipe_round_own event arg l : ∀ pre rest st tg n,
  pipe_round event arg pre (map own l ++ rest) st tg n
  = pipe_round event arg
      (pre ++ map own (List.filter (survives event) l)) rest
      (dispatch arg (List.filter (listens event) l) st) tg n.
Proof.
  induction l as [|s l IH]; intros pre rest st tg n.
  - cbn. by rewrite app_nil_r.
  - cbn [map app pipe_round own pipe_event pipe_callback pipe_once List.filter].
    unfold survives at 1. fold (listens event s).
    destruct (listens event s) eqn:Hl; cbn [andb negb pipe_call].
    + destruct (sub_once s); cbn [negb].
      * by rewrite IH.
      * rewrite IH. cbn [map]. by rewrite <- app_assoc.
    + rewrite IH. cbn [map]. by rewrite <- app_assoc.
Qed.

End Piping.

Lemma pipe_round_own_only event arg l pre st tg n :
  pipe_round event arg pre (map own l) st tg n
  = PipeReturned
      (mkEmitters (pre ++ map own (List.filter (survives event) l))
         (dispatch arg (List.filter (listens event) l) st) tg n).
Proof.
  rewrite <- (app_nil_r (map own l)). by rewrite pipe_round_own.
Qed.

(** ** pipe *)

(** X15: pipe on an event that neither emitter has sealed registers one
    arrow at the end of the registry and calls nothing; an [emit] of the
    event on this emitter then runs its own listeners as before and,
    through the arrow, the [emit] of the other emitter with the same
    arguments; the arrow stays registered. *)
Theorem pipe_forwards_emit event arg st tg :
  _oneTimeEvents st !! event = None →
  _oneTimeEvents tg !! event = None →
  let arrow := mkPipeSubscription event (Forward 0 event) false in
  ∃ w tg',
    pipe event (emitters_of st tg) = (Forward 0 event, PipeReturned w)
    ∧ w = mkEmitters (map own (_subscriptions st) ++ [arrow]) st tg 1
    ∧ emit event arg tg = Returned tg'
    ∧ pipe_emit event arg w
      = PipeReturned
          (mkEmitters
             (map own (List.filter (survives event) (_subscriptions st))
              ++ [arrow])
             (dispatch arg (List.filter (listens event) (_subscriptions st)) st)
             tg' 1).
Proof.
  intros Hst Htg arrow. eexists. eexists.
  split; [unfold pipe, pipe_on; cbn; by rewrite Hst|].
  split; [done|]. split; [by apply emit_unsealed|].
  rewrite pipe_emit_unsealed by (cbn; done). cbn [piped this eventEmitter arrows set_piped set_emitters emitters_of].
  rewrite pipe_round_own. cbn [pipe_round arrow pipe_event pipe_callback].
  rewrite bool_decide_eq_true_2 by done. cbn [pipe_call].
  by rewrite (emit_unsealed _ _ _ Htg).
Qed.

Lemma pipe_forwards_emit_witness :
  _oneTimeEvents busy_state !! greet = None
  ∧ _oneTimeEvents listening_target !! greet = None
  ∧ let arrow := mkPipeSubscription greet (Forward 0 greet) false in
    ∃ w tg',
      pipe greet (emitters_of busy_state listening_target)
      = (Forward 0 greet, PipeReturned w)
      ∧ w = mkEmitters (map own (_subscriptions busy_state) ++ [arrow])
              busy_state listening_target 1
      ∧ emit greet Alice listening_target = Returned tg'
      ∧ pipe_emit greet Alice w
        = PipeReturned
            (mkEmitters
               (map own (List.filter (survives greet) (_subscriptions busy_state))
                ++ [arrow])
               (dispatch Alice
                  (List.filter (listens greet) (_subscriptions busy_state))
                  busy_state)
               tg' 1).
Proof.
  split; [reflexivity|]. split; [reflexivity|].
  apply (pipe_forwards_emit greet Alice busy_state listening_target);
    reflexivity.
Defined.

(** X16: when the other emitter has sealed the event, the arrow of pipe
    throws its error out of [emit] of this emitter.  The listeners before
    the arrow have been called and the one-time ones among them removed;
    the arrow and all that follows it in the registry is neither called
    nor removed, and the other emitter is as it was. *)
Theorem pipe_to_sealed_target_throws event arg a l n post st tg k :
  _oneTimeEvents st !! event = None →
  _oneTimeEvents tg !! event = Some a →
  let arrow := mkPipeSubscription event (Forward n event) false in
  pipe_emit event arg (mkEmitters (map own l ++ arrow :: post) st tg k)
  = PipeThrown (once_error event)
      (mkEmitters (map own (List.filter (survives event) l) ++ arrow :: post)
         (dispatch arg (List.filter (listens event) l) st) tg k).
Proof.
  intros Hst Htg arrow.
  rewrite pipe_emit_unsealed by (cbn; done). cbn [piped this eventEmitter arrows set_piped set_emitters emitters_of].
  rewrite pipe_round_own. cbn [pipe_round arrow pipe_event pipe_callback].
  rewrite bool_decide_eq_true_2 by done. cbn [pipe_call].
  by rewrite (emit_sealed _ _ _ _ Htg).
Qed.

Lemma pipe_to_sealed_target_throws_witness :
  _oneTimeEvents busy_state !! greet = None
  ∧ _oneTimeEvents sealed_target !! greet = Some [VNum 0]
  ∧ let arrow := mkPipeSubscription greet (Forward 0 greet) false in
    let post := [own (mkSubscription greet greeter true)] in
    pipe_emit greet Alice
      (mkEmitters (map own (_subscriptions busy_state) ++ arrow :: post)
         busy_state sealed_target 1)
    = PipeThrown (once_error greet)
        (mkEmitters
           (map own (List.filter (survives greet) (_subscriptions busy_state))
            ++ arrow :: post)
           (dispatch Alice
              (List.filter (listens greet) (_subscriptions busy_state))
              busy_state)
           sealed_target 1).
Proof.
  split; [reflexivity|]. split; [reflexivity|].
  apply (pipe_to_sealed_target_throws greet Alice [VNum 0]
           (_subscriptions busy_state) 0
           [own (mkSubscription greet greeter true)] busy_state sealed_target 1);
    reflexivity.
Defined.

Lemma pipe_off_keeps_own event arrow_id arrow_event l :
  List.filter (pipe_off_keeps event (Some (Forward arrow_id arrow_event)))
    (map own l)
  = map own l.
Proof.
  apply filter_keeps_all. intros s Hs.
  apply list_elem_of_In, List.in_map_iff in Hs as (s0 & <- & _).
  unfold pipe_off_keeps. cbn. apply orb_true_r.
Qed.

(** X17: stop() of the handle of pipe takes the arrow, and nothing else,
    out of the registry; an [emit] on this emitter after it runs the
    listeners of this emitter and leaves the other emitter alone. *)
Theorem pipe_stop_ends_forwarding event arg st tg :
  _oneTimeEvents st !! event = None →
  ∃ arrow w,
    pipe event (emitters_of st tg) = (arrow, PipeReturned w)
    ∧ pipe_stop event arrow w = mkEmitters (map own (_subscriptions st)) st tg 1
    ∧ pipe_emit event arg (pipe_stop event arrow w)
      = PipeReturned
          (mkEmitters
             (map own (List.filter (survives event) (_subscriptions st)))
             (dispatch arg (List.filter (listens event) (_subscriptions st)) st)
             tg 1).
Proof.
  intros Hst. eexists. eexists.
  split; [unfold pipe, pipe_on; cbn; by rewrite Hst|].
  assert (pipe_stop event (Forward 0 event)
            (set_piped
               (map own (_subscriptions st)
                ++ [mkPipeSubscription event (Forward 0 event) false])
               (mkEmitters (map own (_subscriptions st)) st tg 1))
          = mkEmitters (map own (_subscriptions st)) st tg 1) as Hstop.
  { unfold pipe_stop, pipe_off. cbn. rewrite List.filter_app, pipe_off_keeps_own.
    cbn. unfold pipe_off_keeps at 1. cbn.
    rewrite !bool_decide_eq_true_2 by done. cbn. by rewrite app_nil_r. }
  split; [exact Hstop|]. cbn [piped this eventEmitter arrows set_piped set_emitters emitters_of].
  rewrite Hstop, pipe_emit_unsealed by done.
  cbn [piped this eventEmitter arrows set_piped set_emitters emitters_of]. by rewrite pipe_round_own_only.
Qed.

Lemma pipe_stop_ends_forwarding_witness :
  _oneTimeEvents busy_state !! greet = None
  ∧ ∃ arrow w,
      pipe greet (emitters_of busy_state listening_target)
      = (arrow, PipeReturned w)
      ∧ pipe_stop greet arrow w
        = mkEmitters (map own (_subscriptions busy_state)) busy_state
            listening_target 1
      ∧ pipe_emit greet Alice (pipe_stop greet arrow w)
        = PipeReturned
            (mkEmitters
               (map own (List.filter (survives greet) (_subscriptions busy_state)))
               (dispatch Alice
                  (List.filter (listens greet) (_subscriptions busy_state))
                  busy_state)
               listening_target 1).
Proof.
  split; [reflexivity|].
  apply (pipe_stop_ends_forwarding greet Alice busy_state listening_target).
  reflexivity.
Defined.

(** X18: pipe on an event that this emitter has sealed runs the arrow at
    once on the stored arguments and registers nothing: the other emitter
    emits them, and if it has sealed the event itself, pipe throws its
    error and returns no handle. *)
Theorem pipe_on_sealed_event_forwards_at_once event a st tg :
  _oneTimeEvents st !! event = Some a →
  match _oneTimeEvents tg !! event with
  | None =>
      ∃ tg', emit event a tg = Returned tg'
             ∧ snd (pipe event (emitters_of st tg))
               = PipeReturned (mkEmitters (map own (_subscriptions st)) st tg' 1)
  | Some _ =>
      snd (pipe event (emitters_of st tg))
      = PipeThrown (once_error event)
          (mkEmitters (map own (_subscriptions st)) st tg 1)
  end.
Proof.
  intros Hst. unfold pipe, pipe_on. cbn. rewrite Hst. cbn.
  destruct (_oneTimeEvents tg !! event) as [b|] eqn:Htg.
  - by rewrite (emit_sealed _ _ _ _ Htg).
  - eexists. split; [by apply emit_unsealed|].
    by rewrite (emit_unsealed _ _ _ Htg).
Qed.

Lemma pipe_on_sealed_event_forwards_at_once_witness :
  _oneTimeEvents sealed_target !! greet = Some [VNum 0]
  ∧ match _oneTimeEvents listening_target !! greet with
    | None =>
        ∃ tg', emit greet [VNum 0] listening_target = Returned tg'
               ∧ snd (pipe greet (emitters_of sealed_target listening_target))
                 = PipeReturned
                     (mkEmitters (map own (_subscriptions sealed_target))
                        sealed_target tg' 1)
    | Some _ =>
        snd (pipe greet (emitters_of sealed_target listening_target))
        = PipeThrown (once_error greet)
            (mkEmitters (map own (_subscriptions sealed_target))
               sealed_target listening_target 1)
    end.
Proof.
  split; [reflexivity|].
  apply (pipe_on_sealed_event_forwards_at_once greet [VNum 0] sealed_target
           listening_target).
  reflexivity.
Defined.

(** ** pipeOnce *)

Lemma resolve_unsettled_fulfils p st :
  unsettled_or_undefined p st →
  promises (resolve p VUndefined st) !! p = Some (Fulfilled VUndefined).
Proof.
  intros Hp. apply (runCallback_once_fulfils p None [] st Hp).
Qed.

Lemma pipeOnce_unsealed event st tg :
  _oneTimeEvents st !! event = None →
  pipeOnce event (emitters_of st tg)
  = (length (promises st),
     PipeReturned
       (mkEmitters
          (map own (_subscriptions st)
           ++ [mkPipeSubscription event
                 (ForwardOnce (length (promises st)) event) true])
          (set_promises (promises st ++ [Pending []]) st) tg 0)).
Proof. intros Hst. unfold pipeOnce. cbn. by rewrite Hst. Qed.

(** X19: pipeOnce on an event that neither emitter has sealed calls
    nothing.  The first [emit] of the event on this emitter then settles
    the promise of pipeOnce, runs [emitOnce] of the other emitter with the
    same arguments, which seals the event there, and takes the arrow out of
    the registry; a second [emit] leaves the other emitter alone. *)
Theorem pipeOnce_forwards_the_first_emit event a b st tg :
  _oneTimeEvents st !! event = None →
  _oneTimeEvents tg !! event = None →
  ∃ p w w1 w2 tg1,
    pipeOnce event (emitters_of st tg) = (p, PipeReturned w)
    ∧ eventEmitter w = tg
    ∧ trace (this w) = trace st
    ∧ emitOnce event a tg = Returned tg1
    ∧ _oneTimeEvents tg1 !! event = Some a
    ∧ pipe_emit event a w = PipeReturned w1
    ∧ eventEmitter w1 = tg1
    ∧ piped w1 = map own (List.filter (survives event) (_subscriptions st))
    ∧ promises (this w1) !! p = Some (Fulfilled VUndefined)
    ∧ pipe_emit event b w1 = PipeReturned w2
    ∧ eventEmitter w2 = tg1.
Proof.
  intros Hst Htg. eexists. eexists. eexists. eexists. eexists.
  split; [by apply pipeOnce_unsealed|]. split; [done|]. split; [done|].
  split; [by apply emitOnce_unsealed|].
  split; [cbn; apply lookup_insert_eq|].
  split.
  { rewrite pipe_emit_unsealed by (cbn; done).
    cbn [piped this eventEmitter arrows].
    rewrite pipe_round_own. cbn [pipe_round pipe_event pipe_callback pipe_once].
    rewrite bool_decide_eq_true_2 by done. cbn [pipe_call].
    rewrite (emitOnce_unsealed _ _ _ Htg). cbn [pipe_round].
    reflexivity. }
  split; [reflexivity|]. split; [reflexivity|]. split.
  { cbn [this]. apply resolve_unsettled_fulfils, dispatch_unsettled.
    left. eexists. cbn. by apply list_lookup_middle. }
  split.
  { rewrite pipe_emit_unsealed.
    - cbn [piped this eventEmitter arrows app].
      by rewrite pipe_round_own_only.
    - cbn [this]. by rewrite resolve_oneTimeEvents, dispatch_oneTimeEvents. }
  reflexivity.
Qed.

Lemma pipeOnce_forwards_the_first_emit_witness :
  _oneTimeEvents busy_state !! greet = None
  ∧ _oneTimeEvents listening_target !! greet = None
  ∧ ∃ p w w1 w2 tg1,
      pipeOnce greet (emitters_of busy_state listening_target)
      = (p, PipeReturned w)
      ∧ eventEmitter w = listening_target
      ∧ trace (this w) = trace busy_state
      ∧ emitOnce greet Alice listening_target = Returned tg1
      ∧ _oneTimeEvents tg1 !! greet = Some Alice
      ∧ pipe_emit greet Alice w = PipeReturned w1
      ∧ eventEmitter w1 = tg1
      ∧ piped w1
        = map own (List.filter (survives greet) (_subscriptions busy_state))
      ∧ promises (this w1) !! p = Some (Fulfilled VUndefined)
      ∧ pipe_emit greet [VNum 7] w1 = PipeReturned w2
      ∧ eventEmitter w2 = tg1.
Proof.
  split; [reflexivity|]. split; [reflexivity|].
  apply (pipeOnce_forwards_the_first_emit greet Alice [VNum 7] busy_state
           listening_target); reflexivity.
Defined.

(** X20: when the other emitter has sealed the event, the arrow of
    pipeOnce throws out of [emit] of this emitter after the promise is
    settled and before the subscription is spliced out: the one-time
    subscription stays in the registry, and the next [emit] of the event on
    this emitter throws in the same way. *)
Theorem pipeOnce_to_sealed_target_keeps_throwing event a b a0 st tg :
  _oneTimeEvents st !! event = None →
  _oneTimeEvents tg !! event = Some a0 →
  ∃ p w w1 w2,
    pipeOnce event (emitters_of st tg) = (p, PipeReturned w)
    ∧ pipe_emit event a w = PipeThrown (once_error event) w1
    ∧ piped w1
      = map own (List.filter (survives event) (_subscriptions st))
        ++ [mkPipeSubscription event (ForwardOnce p event) true]
    ∧ eventEmitter w1 = tg
    ∧ promises (this w1) !! p = Some (Fulfilled VUndefined)
    ∧ pipe_emit event b w1 = PipeThrown (once_error event) w2
    ∧ piped w2 = piped w1
    ∧ eventEmitter w2 = tg.
Proof.
  intros Hst Htg. eexists. eexists. eexists. eexists.
  split; [by apply pipeOnce_unsealed|].
  split.
  { rewrite pipe_emit_unsealed by (cbn; done).
    cbn [piped this eventEmitter arrows].
    rewrite pipe_round_own. cbn [pipe_round pipe_event pipe_callback pipe_once].
    rewrite bool_decide_eq_true_2 by done. cbn [pipe_call].
    by rewrite (emitOnce_sealed _ _ _ _ Htg). }
  split; [reflexivity|]. split; [reflexivity|]. split.
  { cbn [this]. apply resolve_unsettled_fulfils, dispatch_unsettled.
    left. eexists. cbn. by apply list_lookup_middle. }
  split.
  { rewrite pipe_emit_unsealed.
    - cbn [piped this eventEmitter arrows app].
      rewrite pipe_round_own.
      cbn [pipe_round pipe_event pipe_callback pipe_once].
      rewrite bool_decide_eq_true_2 by done. cbn [pipe_call].
      by rewrite (emitOnce_sealed _ _ _ _ Htg).
    - cbn [this]. by rewrite resolve_oneTimeEvents, dispatch_oneTimeEvents. }
  split; [|reflexivity]. cbn [piped app]. by rewrite filter_survives_survivors.
Qed.

Lemma pipeOnce_to_sealed_target_keeps_throwing_witness :
  _oneTimeEvents busy_state !! greet = None
  ∧ _oneTimeEvents sealed_target !! greet = Some [VNum 0]
  ∧ ∃ p w w1 w2,
      pipeOnce greet (emitters_of busy_state sealed_target)
      = (p, PipeReturned w)
      ∧ pipe_emit greet Alice w = PipeThrown (once_error greet) w1
      ∧ piped w1
        = map own (List.filter (survives greet) (_subscriptions busy_state))
          ++ [mkPipeSubscription greet (ForwardOnce p greet) true]
      ∧ eventEmitter w1 = sealed_target
      ∧ promises (this w1) !! p = Some (Fulfilled VUndefined)
      ∧ pipe_emit greet [VNum 7] w1 = PipeThrown (once_error greet) w2
      ∧ piped w2 = piped w1
      ∧ eventEmitter w2 = sealed_target.
Proof.
  split; [reflexivity|]. split; [reflexivity|].
  apply (pipeOnce_to_sealed_target_keeps_throwing greet Alice [VNum 7] [VNum 0]
           busy_state sealed_target); reflexivity.
Defined.

(** X21: pipeOnce on an event that this emitter has sealed runs
    [ourCallback] at once on the stored arguments and registers nothing.
    Its promise holds undefined when it returns; the other emitter seals
    the event with these arguments, or, if it has sealed the event itself,
    is as it was, and its error does not leave pipeOnce. *)
Theorem pipeOnce_on_sealed_event_never_throws event a st tg :
  _oneTimeEvents st !! event = Some a →
  ∃ w,
    pipeOnce event (emitters_of st tg) = (length (promises st), PipeReturned w)
    ∧ piped w = map own (_subscriptions st)
    ∧ promises (this w) !! length (promises st) = Some (Fulfilled VUndefined)
    ∧ match _oneTimeEvents tg !! event with
      | None => emitOnce event a tg = Returned (eventEmitter w)
                ∧ _oneTimeEvents (eventEmitter w) !! event = Some a
      | Some _ => eventEmitter w = tg
      end.
Proof.
  intros Hst.
  assert (promises
            (resolve (length (promises st)) VUndefined
               (set_promises (promises st ++ [Pending []]) st))
            !! length (promises st) = Some (Fulfilled VUndefined)) as Hp.
  { apply resolve_unsettled_fulfils. left. eexists. cbn.
    by apply list_lookup_middle. }
  unfold pipeOnce. cbn. rewrite Hst. cbn [pipe_call].
  destruct (_oneTimeEvents tg !! event) as [b|] eqn:Htg.
  - rewrite (emitOnce_sealed _ _ _ _ Htg). eexists. split; [done|].
    split; [done|]. split; [exact Hp|done].
  - rewrite (emitOnce_unsealed _ _ _ Htg). eexists. split; [done|].
    split; [done|]. split; [exact Hp|]. split; [done|].
    cbn. apply lookup_insert_eq.
Qed.

Lemma pipeOnce_on_sealed_event_never_throws_witness :
  _oneTimeEvents sealed_target !! greet = Some [VNum 0]
  ∧ ∃ w,
      pipeOnce greet (emitters_of sealed_target sealed_target)
      = (length (promises sealed_target), PipeReturned w)
      ∧ piped w = map own (_subscriptions sealed_target)
      ∧ promises (this w) !! length (promises sealed_target)
        = Some (Fulfilled VUndefined)
      ∧ match _oneTimeEvents sealed_target !! greet with
        | None => emitOnce greet [VNum 0] sealed_target
                  = Returned (eventEmitter w)
                  ∧ _oneTimeEvents (eventEmitter w) !! greet = Some [VNum 0]
        | Some _ => eventEmitter w = sealed_target
        end.
Proof.
  split; [reflexivity|].
  apply (pipeOnce_on_sealed_event_never_throws greet [VNum 0] sealed_target
           sealed_target).
  reflexivity.
Defined.

(** The loop with arrows, on a registry that has none, is the loop of
    [emit]. *)
Lemma pipe_emit_without_arrows event arg st tg st' :
  emit event arg st = Returned st' →
  pipe_emit event arg (emitters_of st tg)
  = PipeReturned
      (mkEmitters (map own (_subscriptions st'))
         (set_subscriptions (_subscriptions st) st') tg 0).
Proof.
  intros Hemit.
  destruct (_oneTimeEvents st !! event) as [a|] eqn:Hlook.
  - by rewrite (emit_sealed _ _ _ _ Hlook) in Hemit.
  - rewrite (emit_unsealed _ _ _ Hlook) in Hemit. injection Hemit as <-.
    rewrite pipe_emit_unsealed by done.
    cbn [emitters_of piped this eventEmitter arrows].
    rewrite pipe_round_own_only, set_subscriptions_twice.
    rewrite (set_subscriptions_same _ (_subscriptions st))
      by apply dispatch_subscriptions.
    reflexivity.
Qed.

(** * offOnce and the one-time subscriptions *)

Lemma wrapped_filter f st :
  once_entries_wrapped st →
  once_entries_wrapped (set_subscriptions (List.filter f (_subscriptions st)) st).
Proof.
  intros Hw s Hs. cbn in Hs. apply elem_of_List_filter in Hs as [Hs _].
  by apply Hw.
Qed.

Lemma wrapped_same_registry st st' :
  _subscriptions st' = _subscriptions st →
  once_entries_wrapped st → once_entries_wrapped st'.
Proof. intros Heq Hw s. rewrite Heq. apply Hw. Qed.

Lemma wrapped_push s st st' :
  _subscriptions st' = _subscriptions st ++ [s] →
  (sub_once s = true → ∃ p callback, sub_callback s = OnceCallback p callback) →
  once_entries_wrapped st → once_entries_wrapped st'.
Proof.
  intros Heq Hs Hw s0. rewrite Heq. intros Hin.
  apply elem_of_app in Hin as [Hin|Hin]; [by apply Hw|].
  apply list_elem_of_singleton in Hin as ->. exact Hs.
Qed.

Lemma wrapped_on event callback st :
  once_entries_wrapped st → once_entries_wrapped (snd (on event callback st)).
Proof.
  intros Hw. unfold on. cbn.
  destruct (_oneTimeEvents st !! event) as [a|].
  - eapply wrapped_same_registry; [|done]. apply call_subscriptions.
  - eapply wrapped_push; [done| |done]. by intros.
Qed.

Lemma wrapped_once event callback st :
  once_entries_wrapped st → once_entries_wrapped (snd (once event callback st)).
Proof.
  intros Hw. unfold once. cbn.
  destruct (_oneTimeEvents st !! event) as [a|]; cbn [snd].
  - eapply wrapped_same_registry; [|done].
    unfold runCallback. by rewrite call_subscriptions.
  - eapply wrapped_push; [done| |done]. intros _. eauto.
Qed.

Lemma wrapped_emit event arg st st' :
  emit event arg st = Returned st' →
  once_entries_wrapped st → once_entries_wrapped st'.
Proof.
  intros Hemit Hw.
  destruct (_oneTimeEvents st !! event) as [a|] eqn:Hlook.
  - by rewrite (emit_sealed _ _ _ _ Hlook) in Hemit.
  - rewrite (emit_unsealed _ _ _ Hlook) in Hemit. injection Hemit as <-.
    intros s Hs. cbn in Hs. apply elem_of_List_filter in Hs as [Hs _].
    by apply Hw.
Qed.

Lemma wrapped_ready callback st :
  once_entries_wrapped st → once_entries_wrapped (snd (ready callback st)).
Proof.
  intros Hw. unfold ready. cbn -[once call await].
  destruct (_ready st).
  - eapply wrapped_same_registry; [|exact Hw].
    destruct callback as [cb|]; cbn -[call await].
    + pose proof (call_subscriptions cb []
                    (set_promises (promises st ++ [Pending []]) st)) as Hcall.
      destruct (call cb [] (set_promises (promises st ++ [Pending []]) st))
        as [r st1]. cbn -[await] in *. by rewrite await_subscriptions.
    + done.
  - cbn -[once]. apply wrapped_once. by eapply wrapped_same_registry.
Qed.

(** X23: in a new emitter, and after any of its methods in a state where
    this holds, every one-time subscription of the registry holds an
    [ourCallback] made by [once], never a function of the caller. *)
Theorem one_time_subscriptions_hold_ourCallback :
  once_entries_wrapped constructor
  ∧ ∀ st, once_entries_wrapped st →
      (∀ event callback, once_entries_wrapped (snd (on event callback st)))
      ∧ (∀ event callback, once_entries_wrapped (snd (once event callback st)))
      ∧ (∀ event callback, once_entries_wrapped (off event callback st))
      ∧ (∀ event callback, once_entries_wrapped (offOnce event callback st))
      ∧ once_entries_wrapped (clearEvents st)
      ∧ (∀ event arg st',
           emit event arg st = Returned st' → once_entries_wrapped st')
      ∧ (∀ event arg st',
           emitOnce event arg st = Returned st' → once_entries_wrapped st')
      ∧ (∀ value st',
           set_prepared value st = Returned st' → once_entries_wrapped st')
      ∧ (∀ callback, once_entries_wrapped (snd (ready callback st))).
Proof.
  split.
  { intros s Hs Ho. apply list_elem_of_In in Hs. cbn in Hs.
    destruct Hs as [<-|[]]. discriminate. }
  intros st Hw. repeat split.
  - intros event callback. by apply wrapped_on.
  - intros event callback. by apply wrapped_once.
  - intros event callback. by apply wrapped_filter.
  - intros event callback. by apply wrapped_filter.
  - intros s Hs. cbn in Hs. by apply not_elem_of_nil in Hs.
  - intros event arg st'. intros Hemit. by eapply wrapped_emit.
  - intros event arg st' Hret.
    destruct (_oneTimeEvents st !! event) as [a|] eqn:Hlook.
    + by rewrite (emitOnce_sealed _ _ _ _ Hlook) in Hret.
    + rewrite (emitOnce_unsealed _ _ _ Hlook) in Hret. injection Hret as <-.
      intros s Hs. cbn in Hs. apply elem_of_List_filter in Hs as [Hs _].
      by apply Hw.
  - intros value st' Hemit. by eapply wrapped_emit.
  - intros callback. by apply wrapped_ready.
Qed.

(** X24: offOnce(event, f) with a function [f] of the caller removes
    nothing, in any state where the one-time subscriptions hold
    [ourCallback]: a subscription is kept when it is not one-time, and the
    one-time ones never hold [f]. *)
Theorem offOnce_with_a_listener_removes_nothing event id ret st :
  once_entries_wrapped st →
  offOnce event (Some (Listener id ret)) st = st.
Proof.
  intros Hw. unfold offOnce. apply set_subscriptions_same.
  symmetry. apply filter_keeps_all. intros s Hs.
  unfold offOnce_keeps, off_keeps.
  destruct (sub_once s) eqn:Ho; [|apply orb_true_r].
  destruct (Hw s Hs Ho) as (p & callback & ->). cbn.
  by destruct (bool_decide (sub_event s = event)).
Qed.

Lemma offOnce_with_a_listener_removes_nothing_witness :
  once_entries_wrapped busy_state
  ∧ offOnce greet (Some logger) busy_state = busy_state.
Proof.
  assert (once_entries_wrapped busy_state) as Hw.
  { intros s Hs Ho. apply list_elem_of_In in Hs. cbn in Hs.
    repeat (destruct Hs as [<-|Hs]; [try discriminate; eauto|]).
    destruct Hs. }
  split; [exact Hw|].
  apply (offOnce_with_a_listener_removes_nothing greet 2 (λ _, VUndefined)
           busy_state Hw).
Defined.

(** * emit among other calls

    Sequences of calls in which listeners are called, over the registry
    that can hold listeners of any kind; the listeners of the event at hand
    are quiet. *)

Section Sequences.

Lemma filter_hears_stays event (l : list Registration) :
  List.filter (hears event) (List.filter (stays event) l)
  = List.filter (λ s, hears event s && negb (reg_once s)) l.
Proof.
  induction l as [|s l IH]; cbn; [done|].
  unfold stays at 1.
  destruct (hears event s) eqn:Hl, (reg_once s); cbn; rewrite ?Hl, IH; done.
Qed.

Lemma filter_sublist {A} (f : A → bool) (l : list A) :
  List.filter f l `sublist_of` l.
Proof.
  induction l as [|x l IH]; cbn; [constructor|].
  destruct (f x); by constructor.
Qed.


Lemma reentrant_offOnce_all event w :
  reentrant_offOnce event None w
  = set_listeners (List.filter (stays event) (listeners w)) w.
Proof.
  unfold reentrant_offOnce. f_equal. apply List.filter_ext. intros s.
  unfold reentrant_off_keeps, stays, hears.
  by destruct (bool_decide (reg_event s = event)), (reg_once s).
Qed.

(** A second [emit] of the event, after one over quiet listeners. *)
Lemma run_emit_quiet_again event a b w fuel :
  _oneTimeEvents (emitter w) !! event = None →
  (∀ s, s ∈ listeners w → reg_event s = event → quiet (reg_callback s)) →
  length (listeners w) + 3 ≤ fuel →
  let w1 :=
    mkReentrant (List.filter (stays event) (listeners w))
      (quiet_round a (List.filter (hears event) (listeners w)) (emitter w))
      (scripts w) in
  run fuel (Emit event b) w1
  = Finished
      (mkReentrant (List.filter (stays event) (listeners w))
         (quiet_round b
            (List.filter (λ s, hears event s && negb (reg_once s)) (listeners w))
            (emitter w1))
         (scripts w)).
Proof.
  intros Hnone Hq Hfuel w1. rewrite run_emit_quiet.
  - unfold w1. cbn [listeners emitter scripts].
    by rewrite filter_stays_twice, filter_hears_stays.
  - unfold w1. cbn [emitter]. by rewrite quiet_round_oneTimeEvents.
  - by apply quiet_after_filter.
  - unfold w1. cbn [listeners].
    pose proof (List.filter_length_le (stays event) (listeners w)). lia.
Qed.


End Sequences.

(** X6: two calls of [emit] for one unsealed event whose listeners are
    quiet.  The first calls every listener of the event, the second only
    those that are not one-time, in registry order both times; the second
    removes nothing more. *)
Theorem emit_twice_calls_one_time_listeners_once event a b w fuel :
  _oneTimeEvents (emitter w) !! event = None →
  (∀ s, s ∈ listeners w → reg_event s = event → quiet (reg_callback s)) →
  length (listeners w) + 3 ≤ fuel →
  ∃ w1 w2,
    run fuel (Emit event a) w = Finished w1
    ∧ run fuel (Emit event b) w1 = Finished w2
    ∧ calls (emitter w2)
      = calls (emitter w)
        ++ flat_map (quiet_calls a) (List.filter (hears event) (listeners w))
        ++ flat_map (quiet_calls b)
             (List.filter (λ s, hears event s && negb (reg_once s)) (listeners w))
    ∧ listeners w2 = listeners w1.
Proof.
  intros Hnone Hq Hfuel. eexists. eexists.
  split; [by apply run_emit_quiet|].
  split; [by apply run_emit_quiet_again|].
  cbn [emitter listeners]. split; [|done].
  by rewrite !quiet_round_calls, <- app_assoc.
Qed.

Lemma emit_twice_calls_one_time_listeners_once_witness :
  ∃ w1 w2,
    run 20 (Emit greet Alice) busy_emitter = Finished w1
    ∧ run 20 (Emit greet Bob) w1 = Finished w2
    ∧ calls (emitter w2)
      = [Called 1 Alice; Called 2 Alice; Called 2 Alice;
         Called 1 Bob; Called 2 Bob]
    ∧ listeners w2 = listeners w1.
Proof.
  apply (emit_twice_calls_one_time_listeners_once greet Alice Bob
           busy_emitter 20).
  - reflexivity.
  - intros s Hin Hev. vm_compute in Hin.
    repeat (apply elem_of_cons in Hin as [->|Hin]; [by vm_compute|]).
    by apply elem_of_nil in Hin.
  - vm_compute. lia.
Defined.



(** X9: on an unsealed event whose listeners are quiet, [emitOnce] is
    [emit] followed by the record: its closing offOnce(event) finds nothing
    left to remove, the one-time subscriptions of the event being gone when
    [emit] returns. *)
Theorem emitOnce_is_emit_then_record event arg w fuel :
  _oneTimeEvents (emitter w) !! event = None →
  (∀ s, s ∈ listeners w → reg_event s = event → quiet (reg_callback s)) →
  length (listeners w) + 3 ≤ fuel →
  ∃ w1,
    run fuel (Emit event arg) w = Finished w1
    ∧ reentrant_offOnce event None w1 = w1
    ∧ run (S fuel) (EmitOnce event arg) w
      = Finished
          (set_emitter
             (set_oneTimeEvents (<[event := arg]> (_oneTimeEvents (emitter w)))
                (emitter w1)) w1).
Proof.
  intros Hnone Hq Hfuel. eexists. split; [by apply run_emit_quiet|].
  split.
  - rewrite reentrant_offOnce_all. unfold set_listeners.
    cbn [listeners emitter scripts]. by rewrite filter_stays_twice.
  - rewrite run_emitOnce, Hnone, run_emit_quiet by done.
    rewrite reentrant_offOnce_all. unfold set_listeners, set_emitter.
    cbn [listeners emitter scripts].
    by rewrite filter_stays_twice, quiet_round_oneTimeEvents.
Qed.

Lemma emitOnce_is_emit_then_record_witness :
  ∃ w1,
    run 20 (Emit greet Alice) busy_emitter = Finished w1
    ∧ reentrant_offOnce greet None w1 = w1
    ∧ run 21 (EmitOnce greet Alice) busy_emitter
      = Finished
          (set_emitter
             (set_oneTimeEvents (<[greet := Alice]> (_oneTimeEvents (emitter busy_emitter)))
                (emitter w1)) w1).
Proof.
  apply (emitOnce_is_emit_then_record greet Alice
           busy_emitter 20).
  - reflexivity.
  - intros s Hin Hev. vm_compute in Hin.
    repeat (apply elem_of_cons in Hin as [->|Hin]; [by vm_compute|]).
    by apply elem_of_nil in Hin.
  - vm_compute. lia.
Defined.

(** X12: with quiet listeners for the event, [emit] seals no event and
    unseals none, adds no subscription (the registry it leaves is a
    sub-list of the one it found), does not bring a set flag back to false
    and leaves the functions of the caller alone; when it throws, the event
    was sealed and nothing has changed. *)
Theorem emit_seals_nothing_and_adds_nothing event arg w fuel :
  (∀ s, s ∈ listeners w → reg_event s = event → quiet (reg_callback s)) →
  length (listeners w) + 3 ≤ fuel →
  match run fuel (Emit event arg) w with
  | Finished w' =>
      _oneTimeEvents (emitter w') = _oneTimeEvents (emitter w)
      ∧ listeners w' `sublist_of` listeners w
      ∧ (_ready (emitter w) = true → _ready (emitter w') = true)
      ∧ scripts w' = scripts w
  | Threw msg w' =>
      w' = w ∧ msg = once_error event
      ∧ is_Some (_oneTimeEvents (emitter w) !! event)
  | NoFuel => False
  end.
Proof.
  intros Hq Hfuel.
  destruct (_oneTimeEvents (emitter w) !! event) as [a0|] eqn:Hlook.
  - destruct fuel as [|n]; [lia|]. rewrite run_emit, Hlook. by eauto.
  - rewrite run_emit_quiet by done. cbn [emitter listeners scripts].
    split; [apply quiet_round_oneTimeEvents|].
    split; [apply filter_sublist|].
    split; [apply quiet_round_ready|done].
Qed.

Lemma emit_seals_nothing_and_adds_nothing_witness :
  match run 20 (Emit greet Alice) busy_emitter with
  | Finished w' =>
      _oneTimeEvents (emitter w') = _oneTimeEvents busy_state
      ∧ listeners w' `sublist_of` listeners busy_emitter
      ∧ (_ready busy_state = true → _ready (emitter w') = true)
      ∧ scripts w' = bodies
  | Threw msg w' =>
      w' = busy_emitter ∧ msg = once_error greet
      ∧ is_Some (_oneTimeEvents busy_state !! greet)
  | NoFuel => False
  end.
Proof.
  apply (emit_seals_nothing_and_adds_nothing greet Alice
           busy_emitter 20).
  - intros s Hin Hev. vm_compute in Hin.
    repeat (apply elem_of_cons in Hin as [->|Hin]; [by vm_compute|]).
    by apply elem_of_nil in Hin.
  - vm_compute. lia.
Defined.

(** X22: offOnce(event) with no callback takes the one-time subscriptions
    of the event, and nothing else, out of the registry; an [emit] of the
    event after it, the listeners of the event being quiet, calls those
    that are left, in their order, and removes nothing. *)
Theorem offOnce_then_emit event arg w fuel :
  _oneTimeEvents (emitter w) !! event = None →
  (∀ s, s ∈ listeners w → reg_event s = event → quiet (reg_callback s)) →
  length (listeners w) + 3 ≤ fuel →
  ∃ w1 w2,
    run fuel (Do (CallOffOnce event None)) w = Finished w1
    ∧ listeners w1 = List.filter (stays event) (listeners w)
    ∧ emitter w1 = emitter w
    ∧ run fuel (Emit event arg) w1 = Finished w2
    ∧ calls (emitter w2)
      = calls (emitter w)
        ++ flat_map (quiet_calls arg)
             (List.filter (λ s, hears event s && negb (reg_once s)) (listeners w))
    ∧ listeners w2 = listeners w1.
Proof.
  intros Hnone Hq Hfuel. eexists. eexists. split.
  { destruct fuel as [|n]; [lia|]. cbn [run].
    by rewrite reentrant_offOnce_all. }
  unfold set_listeners. cbn [listeners emitter scripts].
  split; [done|]. split; [done|]. split.
  - apply run_emit_quiet; cbn [listeners emitter]; [done| |].
    + by apply quiet_after_filter.
    + pose proof (List.filter_length_le (stays event) (listeners w)). lia.
  - cbn [listeners emitter scripts].
    by rewrite quiet_round_calls, filter_hears_stays, filter_stays_twice.
Qed.

Lemma offOnce_then_emit_witness :
  ∃ w1 w2,
    run 20 (Do (CallOffOnce greet None)) busy_emitter = Finished w1
    ∧ listeners w1 = List.filter (stays greet) (listeners busy_emitter)
    ∧ emitter w1 = emitter busy_emitter
    ∧ run 20 (Emit greet Alice) w1 = Finished w2
    ∧ calls (emitter w2) = [Called 1 Alice; Called 2 Alice]
    ∧ listeners w2 = listeners w1.
Proof.
  apply (offOnce_then_emit greet Alice busy_emitter 20).
  - reflexivity.
  - intros s Hin Hev. vm_compute in Hin.
    repeat (apply elem_of_cons in Hin as [->|Hin]; [by vm_compute|]).
    by apply elem_of_nil in Hin.
  - vm_compute. lia.
Defined.

(** X25: a listener that throws, on a sealed event.  [on] calls it at once
    and its error leaves [on]; [once] calls it inside the executor of its
    promise, after resolve(): the error is dropped, [once] returns and its
    promise holds undefined.  Neither registers anything. *)
Theorem sealed_event_and_a_listener_that_throws event a id msg rest w n :
  _oneTimeEvents (emitter w) !! event = Some a →
  scripts w !! id = Some (Throw msg :: rest) →
  let p := length (promises (emitter w)) in
  run (S (S (S (S n)))) (Do (CallOn event (Script id))) w
  = Threw msg (set_emitter (record (Called id a) (emitter w)) w)
  ∧ ∃ w',
      run (S (S (S (S (S n))))) (Do (CallOnce event (Some (Script id)))) w
      = Finished w'
      ∧ promises (emitter w') !! p = Some (Fulfilled VUndefined)
      ∧ calls (emitter w') = calls (emitter w) ++ [Called id a]
      ∧ listeners w' = listeners w.
Proof.
  intros Hsealed Hbody p. split.
  - cbn. by rewrite Hsealed, Hbody.
  - eexists. split.
    + cbn. rewrite Hsealed. cbn. rewrite Hbody. reflexivity.
    + cbn [emitter listeners set_emitter].
      unfold resolve. cbn [promises set_promises].
      rewrite list_lookup_middle by done. cbn.
      split; [|split; [|done]].
      * apply list_lookup_insert_eq. rewrite length_app. cbn. lia.
      * unfold calls. cbn. rewrite !List.filter_app. cbn.
        by rewrite app_nil_r.
Qed.

Lemma sealed_event_and_a_listener_that_throws_witness :
  run 4 (Do (CallOn boot thrower)) sealed_emitter
  = Threw "boom"%string
      (set_emitter (record (Called 6 [VNum 42]) (emitter sealed_emitter))
         sealed_emitter)
  ∧ ∃ w',
      run 5 (Do (CallOnce boot (Some thrower))) sealed_emitter = Finished w'
      ∧ promises (emitter w') !! 0 = Some (Fulfilled VUndefined)
      ∧ calls (emitter w') = calls (emitter sealed_emitter) ++ [Called 6 [VNum 42]]
      ∧ listeners w' = listeners sealed_emitter.
Proof.
  apply (sealed_event_and_a_listener_that_throws boot [VNum 42] 6
           "boom"%string [] sealed_emitter 0); reflexivity.
Defined.
